(** * Codevoice backend: collaboration registry, roster, task queue,
      status stream and quota guard.

    A shallow embedding of
    - [quota.py]                         (modules [Quota], [QuotaRead]),
    - [models/generation_models.py] and the worker loop, the endpoints and
      the status stream of [gemini_project_generator.py]
      (modules [Tasks], [TaskApi], [Stream], [StreamRedis],
      [StreamFallback]),
    - [models/collaboration_models.py]   (module [Roster]),
    - [collaboration_api_db.py]          (module [CollabApi]),
    - [websocket_manager.py]
      (modules [Registry], [RegistryViews], [RegistryInbound]).

    Python dictionaries are [gmap]s, Python sets are [gset]s, integers are
    [Z], [datetime.utcnow()] and the event-loop clock are passed in as
    arguments, and a raised exception is the left injection of a sum.
    The handlers of the registry are coroutines on one event loop: each
    is given as the function it computes when it runs alone and as the
    coroutine that other handlers can interleave with. *)

From Stdlib Require Import ZArith Lia.
From stdpp Require Import base option list gmap sets strings.

Local Open Scope string_scope.
Local Open Scope list_scope.
Local Open Scope Z_scope.

(** Python exceptions that the modelled code raises or catches. *)
Inductive exn : Type :=
| KeyError
| ValueError (msg : string)
| ConnectionError
| AttributeError.

(** What a call into the document store does: it is accepted, or it raises
    an exception, of which the callers read the text with [str(e)]. *)
Inductive store_reply : Type :=
| accepted
| refused (text : string).

(** A computation that either raises or returns. *)
Definition M (A : Type) : Type := exn + A.

Definition raise {A} (e : exn) : M A := inl e.
Definition ret {A} (a : A) : M A := inr a.
Definition bindM {A B} (m : M A) (k : A -> M B) : M B :=
  match m with
  | inl e => inl e
  | inr a => k a
  end.

#[global] Instance M_bind : MBind M := fun A B k m => bindM m k.

(** [d[k]] on a dictionary: [KeyError] when the key is missing. *)
Definition getitem `{Countable K} {V} (d : gmap K V) (k : K) : M V :=
  match d !! k with
  | Some v => ret v
  | None => raise KeyError
  end.

(** Truthiness of an optional string: [None] and [""] are falsy. *)
Definition truthy (o : option string) : bool :=
  match o with
  | None => false
  | Some s => negb (String.eqb s "")
  end.

(* ===================================================================== *)
(** ** quota.py *)
(* ===================================================================== *)

Module Quota.

(** The Redis backend as the function sees it: whether a client was
    configured at import time ([_redis_client is not None]), whether its
    calls currently raise, and the integer stored under each key. *)
Record redis : Type := mkRedis {
  reachable : bool;
  keys : gmap string Z
}.

Record state : Type := mkState {
  _redis_client : option redis;
  _local_quota : gmap string Z
}.

Definition key (user_id : string) : string := String.append "quota:" user_id.

(** The Lua script, run atomically by the server:
    [val < cost] returns [-1] and leaves the key alone, otherwise the key is
    decremented and [val - cost] returned.  A missing key reads as [-1].
    The script compares Lua numbers, which are doubles, and [DECRBY] works
    on 64-bit integers: the arithmetic in [Z] below is the script's for
    stored values and costs of magnitude up to [2^53], and the statements
    about the Redis branch are made within that range. *)
Definition lua_check_and_decr (ks : gmap string Z) (k : string) (cost : Z)
  : gmap string Z * Z :=
  let val := default (-1) (ks !! k) in
  if val <? cost then (ks, -1)
  else (<[k := val - cost]> ks, val - cost).

(** The body of the [try] block of the Redis branch. *)
Definition redis_branch (DEFAULT_QUOTA : Z) (r : redis) (user_id : string)
    (cost : Z) : M (redis * bool) :=
  if reachable r then
    let k := key user_id in
    let ks1 := match keys r !! k with
               | Some _ => keys r
               | None => <[k := DEFAULT_QUOTA]> (keys r)
               end in
    let '(ks2, res) := lua_check_and_decr ks1 k cost in
    ret (mkRedis (reachable r) ks2, 0 <=? res)
  else raise ConnectionError.

(** The in-memory fallback. *)
Definition local_branch (DEFAULT_QUOTA : Z) (q : gmap string Z)
    (user_id : string) (cost : Z) : gmap string Z * bool :=
  match q !! user_id with
  | None => (<[user_id := DEFAULT_QUOTA - cost]> q, true)
  | Some entry =>
      if entry <? cost then (q, false)
      else (<[user_id := entry - cost]> q, true)
  end.

Definition check_and_debit_user_quota (DEFAULT_QUOTA : Z) (st : state)
    (user_id : option string) (cost : Z) : state * bool :=
  if negb (truthy user_id) then (st, true)
  else
    let uid := default "" user_id in
    let fallback (_ : unit) :=
      let '(q, ok) := local_branch DEFAULT_QUOTA (_local_quota st) uid cost in
      (mkState (_redis_client st) q, ok) in
    match _redis_client st with
    | Some r =>
        match redis_branch DEFAULT_QUOTA r uid cost with
        | inr (r', ok) => (mkState (Some r') (_local_quota st), ok)
        | inl _ => fallback tt
        end
    | None => fallback tt
    end.

(** The balance the guard works on for a truthy user id: the Redis key
    when a reachable client is configured, the process-local entry
    otherwise; a user that was never debited holds the default quota. *)
Definition stored_balance (DEFAULT_QUOTA : Z) (st : state) (uid : string) : Z :=
  match _redis_client st with
  | Some r =>
      if reachable r then default DEFAULT_QUOTA (keys r !! key uid)
      else default DEFAULT_QUOTA (_local_quota st !! uid)
  | None => default DEFAULT_QUOTA (_local_quota st !! uid)
  end.

End Quota.

(* ===================================================================== *)
(** ** models/generation_models.py and the worker of
       gemini_project_generator.py *)
(* ===================================================================== *)

Module Tasks.

Inductive TaskStatus : Type := queued | running | completed | failed.

#[global] Instance TaskStatus_eq_dec : EqDecision TaskStatus.
Proof. solve_decision. Defined.

(** Request and result payloads are kept as serialised text. *)
Record GenerationTask : Type := mkTask {
  task_id : string;
  status : TaskStatus;
  request : string;
  result : option string;
  artifact_path : option string;
  error : option string;
  created_at : Z;
  updated_at : Z
}.

Definition mark_running (t : GenerationTask) (now : Z) : GenerationTask :=
  mkTask (task_id t) running (request t) (result t) (artifact_path t)
         (error t) (created_at t) now.

Definition mark_completed (t : GenerationTask) (res : string)
    (artifact : option string) (now : Z) : GenerationTask :=
  mkTask (task_id t) completed (request t) (Some res) artifact
         (error t) (created_at t) now.

Definition mark_failed (t : GenerationTask) (err : string) (now : Z)
  : GenerationTask :=
  mkTask (task_id t) failed (request t) (result t) (artifact_path t)
         (Some err) (created_at t) now.

(** The order the status values are compared under. *)
Definition rank (s : TaskStatus) : nat :=
  match s with
  | queued => 0
  | running => 1
  | completed | failed => 2
  end%nat.

Definition terminal (s : TaskStatus) : bool :=
  match s with
  | completed | failed => true
  | _ => false
  end.

(** The durable collection of task documents, looked up by [task_id]
    ([GenerationTask.find_one(GenerationTask.task_id == task_id)]); the
    FIFO [_job_queue]; and the [task] object the single worker holds while
    it awaits [generate_project]. *)
Record system : Type := mkSystem {
  store : gmap string GenerationTask;
  _job_queue : list string;
  in_flight : option GenerationTask
}.

Definition init : system := mkSystem ∅ [] None.

(** [await self.save()]: writes the document, or raises when the store
    refuses ([ok = false]). *)
Definition save (db : gmap string GenerationTask) (t : GenerationTask)
    (ok : bool) : M (gmap string GenerationTask) :=
  if ok then ret (<[task_id t := t]> db) else raise ConnectionError.

(** [generate_project_async]: a fresh [uuid4] names the task, the document
    is inserted with status [queued] and the id is appended to the queue.
    [None] when the id is not fresh, which [uuid4] excludes. *)
Definition submit (sys : system) (id : string) (req : string) (now : Z)
  : option system :=
  match store sys !! id with
  | Some _ => None
  | None =>
      Some (mkSystem
              (<[id := mkTask id queued req None None None now now]> (store sys))
              (_job_queue sys ++ [id])
              (in_flight sys))
  end.

(** First half of one iteration of [_worker_loop], up to the call of
    [generate_project]: pop the oldest id, load the document, mark it
    running.  A missing document is skipped ([continue]); a failing save
    raises into the outer [except], which ends the iteration.  An empty
    queue makes the worker sleep.  [None] when the worker is still inside
    [generate_project] for an earlier task. *)
Definition worker_dequeue (sys : system) (now : Z) (save_ok : bool)
  : option system :=
  match in_flight sys with
  | Some _ => None
  | None =>
      match _job_queue sys with
      | [] => Some sys
      | id :: rest =>
          match store sys !! id with
          | None => Some (mkSystem (store sys) rest None)
          | Some t =>
              let t1 := mark_running t now in
              match save (store sys) t1 save_ok with
              | inr db => Some (mkSystem db rest (Some t1))
              | inl _ => Some (mkSystem (store sys) rest None)
              end
          end
      end
  end.

(** Second half: [generate_project] returned a payload ([inr]) or raised
    ([inl], with the text of the exception).  A payload is recorded with
    [mark_completed]; any exception of the inner [try], including a failing
    save of the completed document, is recorded with [mark_failed] on the
    same object.  A failing save in [mark_failed] raises into the outer
    [except].  The Redis publication that follows does not touch the
    document. *)
Definition worker_finish (sys : system) (outcome : string + string) (now : Z)
    (save_ok save_ok' : bool) : option system :=
  match in_flight sys with
  | None => None
  | Some t =>
      let fail (t' : GenerationTask) (err : string) :=
        match save (store sys) (mark_failed t' err now) save_ok' with
        | inr db => Some (mkSystem db (_job_queue sys) None)
        | inl _ => Some (mkSystem (store sys) (_job_queue sys) None)
        end in
      match outcome with
      | inr payload =>
          let t2 := mark_completed t payload None now in
          match save (store sys) t2 save_ok with
          | inr db => Some (mkSystem db (_job_queue sys) None)
          | inl _ => fail t2 "save failed"
          end
      | inl err => fail t err
      end
  end.

Inductive event : Type :=
| Submit (id : string) (req : string) (now : Z)
| WorkerDequeue (now : Z) (save_ok : bool)
| WorkerFinish (outcome : string + string) (now : Z) (save_ok save_ok' : bool).

Definition step (sys : system) (e : event) : option system :=
  match e with
  | Submit id req now => submit sys id req now
  | WorkerDequeue now ok => worker_dequeue sys now ok
  | WorkerFinish outcome now ok ok' => worker_finish sys outcome now ok ok'
  end.

Fixpoint run (sys : system) (es : list event) : option system :=
  match es with
  | [] => Some sys
  | e :: es' =>
      match step sys e with
      | Some sys' => run sys' es'
      | None => None
      end
  end.

(** The status a poll of the store observes for a task id. *)
Definition status_of (sys : system) (id : string) : option TaskStatus :=
  status <$> store sys !! id.

End Tasks.

(* ===================================================================== *)
(** ** The polling fallback of task_progress_ws
       (gemini_project_generator.py) *)
(* ===================================================================== *)

Module Stream.
Import Tasks.

Inductive payload : Type :=
| task_payload (tid : string) (st : TaskStatus) (res : option string)
               (artifact : option string) (err : option string)
| task_not_found (tid : string).

Inductive ws_event : Type :=
| send_json (p : payload)
| close.

Definition payload_of (t : GenerationTask) : payload :=
  task_payload (task_id t) (status t) (result t) (artifact_path t) (error t).

(** The [while True] loop of the fallback while its lookups return.  Each
    element of [polls] is what one [GenerationTask.find_one] returns; the
    loop consumes them until it closes the connection, and the events it
    performed on the websocket are returned in order.  When the polls run
    out the connection is still open.  The lookups that raise, and the
    [except] branch of the handler that they lead to, are in
    [StreamFallback.poll_loop], which is this loop when no lookup
    raises. *)
Fixpoint poll_loop (tid : string) (last_status : option TaskStatus)
    (polls : list (option GenerationTask)) : list ws_event :=
  match polls with
  | [] => []
  | None :: rest =>
      send_json (task_not_found tid) :: poll_loop tid last_status rest
  | Some task :: rest =>
      let changed := negb (bool_decide (Some (status task) = last_status)) in
      let update := if changed then [send_json (payload_of task)] else [] in
      let last_status' := if changed then Some (status task) else last_status in
      if terminal (status task)
      then update ++ [send_json (payload_of task); close]
      else update ++ poll_loop tid last_status' rest
  end.

(** The fallback starts with [last_status = None]. *)
Definition task_progress_ws_fallback (tid : string)
    (polls : list (option GenerationTask)) : list ws_event :=
  poll_loop tid None polls.

(** A sent message that carries a terminal status. *)
Definition is_terminal_message (e : ws_event) : bool :=
  match e with
  | send_json (task_payload _ st _ _ _) => terminal st
  | _ => false
  end.

End Stream.

(* ===================================================================== *)
(** ** models/collaboration_models.py *)
(* ===================================================================== *)

Module Roster.

Inductive ParticipantRole : Type := VIEWER | EDITOR | ADMIN.

Module SessionParticipant.
Record t : Type := mk {
  user_id : string;
  username : string;
  role : ParticipantRole;
  joined_at : Z;
  last_activity : Z;
  is_active : bool
}.
End SessionParticipant.

Module CollaborationSession.
Record t : Type := mk {
  host_user_id : string;
  name : string;
  is_active : bool;
  max_participants : Z;
  participants : list SessionParticipant.t;
  shared_code : option string;
  ended_at : option Z;
  last_activity : Z
}.
End CollaborationSession.

Import CollaborationSession.
Abbreviation Participant := SessionParticipant.t.
Abbreviation Session := CollaborationSession.t.

Definition with_participants (s : Session) (ps : list Participant)
    (activity : Z) : Session :=
  mk (host_user_id s) (name s) (is_active s) (max_participants s) ps
     (shared_code s) (ended_at s) activity.

(** The [for participant in self.participants] loop of [add_participant]:
    the first entry with the user id is set active and its last activity
    refreshed; [None] when the loop finds no such entry. *)
Fixpoint reactivate (uid : string) (now : Z) (ps : list Participant)
  : option (list Participant) :=
  match ps with
  | [] => None
  | p :: rest =>
      if String.eqb (SessionParticipant.user_id p) uid then
        Some (SessionParticipant.mk (SessionParticipant.user_id p)
                (SessionParticipant.username p) (SessionParticipant.role p)
                (SessionParticipant.joined_at p) now true :: rest)
      else cons p <$> reactivate uid now rest
  end.

Definition capacity_error : exn := ValueError "Session is at maximum capacity".

Definition add_participant (s : Session) (uid username : string)
    (role : ParticipantRole) (now : Z) : M Session :=
  if Z.of_nat (length (participants s)) >=? max_participants s then
    raise capacity_error
  else
    match reactivate uid now (participants s) with
    | Some ps => ret (with_participants s ps (last_activity s))
    | None =>
        ret (with_participants s
               (participants s ++ [SessionParticipant.mk uid username role now now true])
               now)
    end.

Definition remove_participant (s : Session) (uid : string) (now : Z) : Session :=
  with_participants s
    (List.filter (fun p => negb (String.eqb (SessionParticipant.user_id p) uid))
                 (participants s))
    now.

Definition end_session (s : Session) (now : Z) : Session :=
  mk (host_user_id s) (name s) false (max_participants s) (participants s)
     (shared_code s) (Some now) (last_activity s).

Definition get_active_participants (s : Session) : list Participant :=
  List.filter SessionParticipant.is_active (participants s).

Definition get_participant_count (s : Session) : nat :=
  length (get_active_participants s).

(** A call made on a session by one of its users. *)
Inductive call : Type :=
| Add (uid username : string) (role : ParticipantRole) (now : Z)
| Remove (uid : string) (now : Z).

(** The session after a call; a rejected [add_participant] raised before it
    touched the session. *)
Definition apply_call (s : Session) (c : call) : Session :=
  match c with
  | Add uid username role now =>
      match add_participant s uid username role now with
      | inr s' => s'
      | inl _ => s
      end
  | Remove uid now => remove_participant s uid now
  end.

Definition apply_calls (s : Session) (cs : list call) : Session :=
  fold_left apply_call cs s.

(** The active entries of one user. *)
Definition active_entries (s : Session) (uid : string) : list Participant :=
  List.filter (fun p => String.eqb (SessionParticipant.user_id p) uid)
              (get_active_participants s).

End Roster.

(* ===================================================================== *)
(** ** websocket_manager.py *)
(* ===================================================================== *)

Module Registry.

(** A websocket object is known by its identity. *)
Abbreviation WebSocket := nat.

(** The [user_info] dictionary: the keys the manager reads. *)
Record user_info : Type := mkUser {
  user_id : option string;
  user_name : option string
}.

#[global] Instance user_info_eq_dec : EqDecision user_info.
Proof. solve_decision. Defined.

Inductive EventType : Type := USER_JOINED | USER_LEFT.

(** The messages the manager serialises with [json.dumps]. *)
Inductive message : Type :=
| user_joined (user : user_info) (participants_count : nat)
| session_info (session_id : string) (participants : list user_info)
               (participants_count : nat)
| user_left (user : user_info) (participants_count : nat)
| client_message (type : string) (body : string) (sender : user_info)
                 (timestamp : Z).

(** An entry of [self.sessions]. *)
Record session_meta : Type := mkMeta {
  meta_id : string;
  meta_created_at : Z;
  meta_participants : list user_info
}.

Record ConnectionManager : Type := mkManager {
  active_connections : gmap string (gset WebSocket);
  user_connections : gmap WebSocket (string * user_info);
  sessions : gmap string session_meta;
  user_id_connections : gmap string (gset WebSocket)
}.

(** The client side of the sockets: the sockets on which [send_text]
    raises, and the messages each client has received, oldest first. *)
Record network : Type := mkNetwork {
  broken : gset WebSocket;
  received : gmap WebSocket (list message)
}.

(** The durable store: the [CollaborationSession] documents by id and the
    [CollaborationEvent] log. *)
Record durable : Type := mkDurable {
  collab_sessions : gmap string Roster.CollaborationSession.t;
  collab_events : list (string * string * EventType)
}.

Record world : Type := mkWorld {
  manager : ConnectionManager;
  net : network;
  db : durable
}.

Definition with_manager (w : world) (m : ConnectionManager) : world :=
  mkWorld m (net w) (db w).
Definition with_net (w : world) (n : network) : world :=
  mkWorld (manager w) n (db w).
Definition with_db (w : world) (d : durable) : world :=
  mkWorld (manager w) (net w) d.

Definition inbox (w : world) (ws : WebSocket) : list message :=
  default [] (received (net w) !! ws).

(** [await websocket.send_text(json.dumps(message))]. *)
Definition send_text (n : network) (ws : WebSocket) (msg : message) : M network :=
  if bool_decide (ws ∈ broken n) then raise ConnectionError
  else ret (mkNetwork (broken n)
              (<[ws := default [] (received n !! ws) ++ [msg]]> (received n))).

(** [send_personal_message]: a failing send is logged and swallowed. *)
Definition send_personal_message (msg : message) (ws : WebSocket) (w : world)
  : world :=
  match send_text (net w) ws msg with
  | inr n => with_net w n
  | inl _ => w
  end.

(** One round of the [for connection in connections] loop of
    [broadcast_to_session]. *)
Definition broadcast_one (session_id : string) (msg : message)
    (exclude : option WebSocket) (w : world) (connection : WebSocket) : M world :=
  if bool_decide (exclude = Some connection) then ret w
  else
    match send_text (net w) connection msg with
    | inr n => ret (with_net w n)
    | inl _ =>
        let m := manager w in
        conns ← getitem (active_connections m) session_id;
        let uc := match user_connections m !! connection with
                  | Some _ => delete connection (user_connections m)
                  | None => user_connections m
                  end in
        ret (with_manager w
               (mkManager (<[session_id := conns ∖ {[connection]}]> (active_connections m))
                          uc (sessions m) (user_id_connections m)))
    end.

Fixpoint for_each (f : world → WebSocket → M world) (l : list WebSocket)
    (w : world) : M world :=
  match l with
  | [] => ret w
  | c :: l' => w' ← f w c; for_each f l' w'
  end.

Definition broadcast_to_session (w : world) (session_id : string)
    (msg : message) (exclude : option WebSocket) : M world :=
  match active_connections (manager w) !! session_id with
  | None => ret w
  | Some conns => for_each (broadcast_one session_id msg exclude) (elements conns) w
  end.

(** The synchronous part of [connect], from the lookup of the user id to
    the roster append.  Returns the manager, the completed [user_info] and
    the user id. *)
Definition connect_register (m : ConnectionManager) (websocket : WebSocket)
    (session_id : string) (ui : user_info) (uuid4 : string) (loop_time : Z)
  : M (ConnectionManager * user_info * string) :=
  let uid := if truthy (user_id ui) then default "" (user_id ui) else uuid4 in
  let ui' := if truthy (user_id ui) then ui else mkUser (Some uuid4) (user_name ui) in
  let m1 := match active_connections m !! session_id with
            | Some _ => m
            | None =>
                mkManager (<[session_id := ∅]> (active_connections m))
                          (user_connections m)
                          (<[session_id := mkMeta session_id loop_time []]> (sessions m))
                          (user_id_connections m)
            end in
  conns ← getitem (active_connections m1) session_id;
  let uidc := default ∅ (user_id_connections m1 !! uid) in
  let m3 := mkManager (<[session_id := conns ∪ {[websocket]}]> (active_connections m1))
                      (<[websocket := (session_id, ui')]> (user_connections m1))
                      (sessions m1)
                      (<[uid := uidc ∪ {[websocket]}]> (user_id_connections m1)) in
  meta ← getitem (sessions m3) session_id;
  let existing := existsb (fun p => bool_decide (user_id p = Some uid))
                          (meta_participants meta) in
  let m4 := if existing then m3
            else mkManager (active_connections m3) (user_connections m3)
                   (<[session_id := mkMeta (meta_id meta) (meta_created_at meta)
                                      (meta_participants meta ++ [ui'])]> (sessions m3))
                   (user_id_connections m3) in
  ret (m4, ui', uid).

(** The best-effort persistence at the end of [connect]: every exception,
    the capacity error of [add_participant] included, is logged and
    dropped.  The store is taken to accept the lookup and the writes. *)
Definition persist_join (w : world) (session_id : string) (uid : string)
    (ui : user_info) (utcnow : Z) : world :=
  match collab_sessions (db w) !! session_id with
  | None => w
  | Some session =>
      let username := if truthy (user_name ui) then default "" (user_name ui)
                      else String.append "user_" uid in
      match Roster.add_participant session uid username Roster.EDITOR utcnow with
      | inr session' =>
          with_db w (mkDurable (<[session_id := session']> (collab_sessions (db w)))
                               (collab_events (db w) ++ [(session_id, uid, USER_JOINED)]))
      | inl _ => w
      end
  end.

(** The [user_joined] notice and the [session_info] snapshot, built from
    the manager at the moment of the call. *)
Definition user_joined_message (m : ConnectionManager) (session_id : string)
    (ui : user_info) : M message :=
  conns ← getitem (active_connections m) session_id;
  ret (user_joined ui (size conns)).

Definition session_info_message (m : ConnectionManager) (session_id : string)
  : M message :=
  meta ← getitem (sessions m) session_id;
  conns ← getitem (active_connections m) session_id;
  ret (session_info session_id (meta_participants meta) (size conns)).

(** [connect] from its first line to its last with no other handler in
    between.  The method is a coroutine that is suspended in
    [websocket.accept()] and in each send, where other handlers may run
    and change the registry before it reads it again: that coroutine is
    [connect_async] below, and this function is what it computes when it
    runs alone. *)
Definition connect (w : world) (websocket : WebSocket) (session_id : string)
    (ui : user_info) (uuid4 : string) (loop_time utcnow : Z) : M world :=
  '(m, ui', uid) ← connect_register (manager w) websocket session_id ui uuid4 loop_time;
  joined ← user_joined_message m session_id ui';
  w1 ← broadcast_to_session (with_manager w m) session_id joined (Some websocket);
  info ← session_info_message (manager w1) session_id;
  let w2 := send_personal_message info websocket w1 in
  ret (persist_join w2 session_id uid ui' utcnow).

(** What [disconnect] hands to [asyncio.create_task]. *)
Inductive spawned : Type :=
| broadcast_task (session_id : string) (msg : message)
| persist_leave (session_id : string) (uid : option string) (ui : user_info).

Definition disconnect (w : world) (websocket : WebSocket)
  : M (world * list spawned) :=
  let m := manager w in
  match user_connections m !! websocket with
  | None => ret (w, [])
  | Some (session_id, ui) =>
      let uid := user_id ui in
      '(m1, notify) ←
        match active_connections m !! session_id with
        | None => ret (m, [])
        | Some conns =>
            let conns' := conns ∖ {[websocket]} in
            meta ← getitem (sessions m) session_id;
            let meta' := mkMeta (meta_id meta) (meta_created_at meta)
                           (List.filter
                              (fun p => negb (bool_decide (user_id p = user_id ui)))
                              (meta_participants meta)) in
            if bool_decide (conns' = ∅) then
              ret (mkManager (delete session_id (active_connections m))
                             (user_connections m)
                             (delete session_id (sessions m))
                             (user_id_connections m), [])
            else
              ret (mkManager (<[session_id := conns']> (active_connections m))
                             (user_connections m)
                             (<[session_id := meta']> (sessions m))
                             (user_id_connections m),
                   [broadcast_task session_id (user_left ui (size conns'))])
        end;
      let uc := delete websocket (user_connections m1) in
      let uidc :=
        if truthy uid then
          match user_id_connections m1 !! default "" uid with
          | Some socks =>
              let socks' := socks ∖ {[websocket]} in
              if bool_decide (socks' = ∅)
              then delete (default "" uid) (user_id_connections m1)
              else <[default "" uid := socks']> (user_id_connections m1)
          | None => user_id_connections m1
          end
        else user_id_connections m1 in
      let persist := if String.eqb session_id "" then []
                     else [persist_leave session_id uid ui] in
      ret (with_manager w (mkManager (active_connections m1) uc (sessions m1) uidc),
           notify ++ persist)
  end.

(** The body of a task created by [disconnect].  The store is taken to
    accept the lookup and the writes of the persistence. *)
Definition run_spawned (utcnow : Z) (w : world) (t : spawned) : M world :=
  match t with
  | broadcast_task session_id msg => broadcast_to_session w session_id msg None
  | persist_leave session_id uid ui =>
      match collab_sessions (db w) !! session_id with
      | Some session =>
          if truthy uid then
            ret (with_db w
                   (mkDurable
                      (<[session_id := Roster.remove_participant session
                                         (default "" uid) utcnow]>
                         (collab_sessions (db w)))
                      (collab_events (db w) ++
                         [(session_id, default "" uid, USER_LEFT)])))
          else ret w
      | None => ret w
      end
  end.

Fixpoint run_all (utcnow : Z) (w : world) (ts : list spawned) : M world :=
  match ts with
  | [] => ret w
  | t :: ts' => w' ← run_spawned utcnow w t; run_all utcnow w' ts'
  end.

(** [disconnect] followed by the tasks it created, in creation order. *)
Definition disconnect_and_settle (w : world) (websocket : WebSocket) (utcnow : Z)
  : M world :=
  '(w1, ts) ← disconnect w websocket;
  run_all utcnow w1 ts.

(** [handle_message] on a message that is a JSON object, with no other
    handler between its sends: [type] is the entry that
    [message.get('type')] reads and [body] stands for the other entries.
    The sender and a timestamp are attached and the message is broadcast;
    a chat message goes to the sender as well.  The coroutine is
    [handle_message_async], and the call on a JSON value that is not an
    object is in [RegistryInbound]. *)
Definition handle_message (w : world) (websocket : WebSocket)
    (type body : string) (loop_time : Z) : M world :=
  match user_connections (manager w) !! websocket with
  | None => ret w
  | Some (session_id, ui) =>
      let msg := client_message type body ui loop_time in
      if String.eqb type "chat_message"
      then broadcast_to_session w session_id msg None
      else broadcast_to_session w session_id msg (Some websocket)
  end.

Definition empty_world : world :=
  mkWorld (mkManager ∅ ∅ ∅ ∅) (mkNetwork ∅ ∅) (mkDurable ∅ []).

(** *** Cooperative scheduling

    The handlers are coroutines on one event loop: a handler runs until it
    awaits network input or output, and another handler may run before it
    is resumed.  A coroutine is modelled by what it does when resumed, up
    to its next suspension. *)
#[local] Unset Elimination Schemes.
Inductive coro : Type :=
| Done
| Yield (resume : world → M (world * coro)).
#[local] Set Elimination Schemes.

(** The loop of [broadcast_to_session] suspends at every awaited send. *)
Fixpoint broadcast_async (session_id : string) (msg : message)
    (exclude : option WebSocket) (conns : list WebSocket)
    (k : world → M (world * coro)) (w : world) : M (world * coro) :=
  match conns with
  | [] => k w
  | c :: rest =>
      if bool_decide (exclude = Some c)
      then broadcast_async session_id msg exclude rest k w
      else
        w' ← broadcast_one session_id msg exclude w c;
        ret (w', Yield (broadcast_async session_id msg exclude rest k))
  end.

Definition broadcast_to_session_async (session_id : string) (msg : message)
    (exclude : option WebSocket) (k : world → M (world * coro)) (w : world)
  : M (world * coro) :=
  match active_connections (manager w) !! session_id with
  | None => k w
  | Some conns => broadcast_async session_id msg exclude (elements conns) k w
  end.

(** [connect] as a coroutine: suspended in [websocket.accept()], then in
    each send of the [user_joined] broadcast, then in the send of the
    snapshot, after which the persistence runs. *)
Definition connect_async (websocket : WebSocket) (session_id : string)
    (ui : user_info) (uuid4 : string) (loop_time utcnow : Z) : coro :=
  Yield (fun w =>
    '(m, ui', uid) ← connect_register (manager w) websocket session_id ui uuid4 loop_time;
    joined ← user_joined_message m session_id ui';
    broadcast_to_session_async session_id joined (Some websocket)
      (fun w1 =>
         info ← session_info_message (manager w1) session_id;
         ret (send_personal_message info websocket w1,
              Yield (fun w2 =>
                ret (persist_join w2 session_id uid ui' utcnow, Done))))
      (with_manager w m)).

(** [handle_message] as a coroutine, resumed when the client's text has
    arrived. *)
Definition handle_message_async (websocket : WebSocket) (type body : string)
    (loop_time : Z) : coro :=
  Yield (fun w =>
    match user_connections (manager w) !! websocket with
    | None => ret (w, Done)
    | Some (session_id, ui) =>
        let msg := client_message type body ui loop_time in
        broadcast_to_session_async session_id msg
          (if String.eqb type "chat_message" then None else Some websocket)
          (fun w1 => ret (w1, Done)) w
    end).

(** A coroutine run with no other handler in between. *)
Fixpoint run_alone (c : coro) (w : world) : M world :=
  match c with
  | Done => ret w
  | Yield resume =>
      match resume w with
      | inl e => inl e
      | inr (w', c') => run_alone c' w'
      end
  end.



End Registry.

(* ===================================================================== *)
(** ** quota.py: reading the balance *)
(* ===================================================================== *)

Module QuotaRead.
Import Quota.

(** [get_remaining_quota].  The function is synchronous and calls the
    client's [get] without awaiting it; [sync_get] stands for what
    [int(val) if val is not None else DEFAULT_QUOTA] then has to work
    with: the stored integer, [None] for a missing key, or an exception,
    which the function swallows before it falls back to the process-local
    dictionary. *)
Definition get_remaining_quota (DEFAULT_QUOTA : Z)
    (sync_get : redis → string → M (option Z)) (st : state)
    (user_id : option string) : Z :=
  if negb (truthy user_id) then DEFAULT_QUOTA
  else
    let uid := default "" user_id in
    let local := default DEFAULT_QUOTA (_local_quota st !! uid) in
    match _redis_client st with
    | Some r =>
        match sync_get r (key uid) with
        | inr (Some val) => val
        | inr None => DEFAULT_QUOTA
        | inl _ => local
        end
    | None => local
    end.

End QuotaRead.

(* ===================================================================== *)
(** ** gemini_project_generator.py: the task endpoints *)
(* ===================================================================== *)

Module TaskApi.
Import Tasks.

(** What an endpoint answers: the JSON content, or an [HTTPException]
    with its status code and detail. *)
Inductive response (A : Type) : Type :=
| content (a : A)
| http_error (status_code : nat) (detail : string).
Arguments content {A} a.
Arguments http_error {A} status_code detail.

(** The module globals [_worker_started] and the worker tasks that
    [asyncio.create_task(_worker_loop())] has started so far. *)
Record worker : Type := mkWorker {
  _worker_started : bool;
  workers_started : nat
}.

Definition no_worker : worker := mkWorker false 0.

Definition _ensure_worker (w : worker) : worker :=
  if _worker_started w then w
  else mkWorker true (S (workers_started w)).

(** [generate_project_async]: the worker is ensured before the task is
    created; an exception of the insert is answered with a 500 that quotes
    its text, and nothing is queued.  [None] when the id is not fresh,
    which [uuid4] excludes. *)
Definition generate_project_async (w : worker) (sys : system) (uuid4 : string)
    (req : string) (now : Z) (insert : store_reply)
  : option (worker * system * response (string * TaskStatus)) :=
  let w' := _ensure_worker w in
  match insert with
  | accepted =>
      match submit sys uuid4 req now with
      | Some sys' => Some (w', sys', content (uuid4, queued))
      | None => None
      end
  | refused text =>
      Some (w', sys,
            http_error 500 (String.append "Failed to enqueue generation: " text))
  end.

(** The five fields that [get_generation_status] returns. *)
Record task_view : Type := mkView {
  view_task_id : string;
  view_status : TaskStatus;
  view_result : option string;
  view_artifact_path : option string;
  view_error : option string
}.

Definition get_generation_status (sys : system) (id : string)
  : response task_view :=
  match store sys !! id with
  | None => http_error 404 "Task not found"
  | Some task =>
      content (mkView (task_id task) (status task) (result task)
                      (artifact_path task) (error task))
  end.

End TaskApi.

(* ===================================================================== *)
(** ** gemini_project_generator.py: task_progress_ws with Redis *)
(* ===================================================================== *)

Module StreamRedis.
Import Tasks Stream.

(** The data of a pub/sub message after [json.loads]: a JSON object, of
    which the handler reads the keys [status] and [error], or any other
    JSON value, on which [payload.get] raises.  Data that does not decode
    is wrapped as [{"message": str(data)}], an object with neither key. *)
Inductive decoded : Type :=
| json_object (raw : string) (status error : option string)
| json_other (raw : string).

(** What [pubsub.listen()] yields, one item per iteration; [item_raise]
    is an exception of the subscription or of the iteration. *)
Inductive item : Type :=
| item_none
| item_other (type : string)
| item_message (data : decoded)
| item_raise.

Inductive relay_event : Type :=
| relay_json (raw : string)
| relay_close.

Inductive outcome : Type := closed | fell_back | listening.

(** [payload.get('status') in (TaskStatus.completed, TaskStatus.failed) or
    payload.get('error')]. *)
Definition closing (status error : option string) : bool :=
  match status with
  | Some s => String.eqb s "completed" || String.eqb s "failed"
  | None => false
  end || truthy error.

(** The [async for msg in pubsub.listen()] loop. *)
Fixpoint relay (items : list item) : list relay_event * outcome :=
  match items with
  | [] => ([], listening)
  | item_none :: rest => relay rest
  | item_other _ :: rest => relay rest
  | item_raise :: _ => ([], fell_back)
  | item_message (json_other raw) :: _ => ([relay_json raw], fell_back)
  | item_message (json_object raw status error) :: rest =>
      if closing status error then ([relay_json raw; relay_close], closed)
      else let '(out, o) := relay rest in (relay_json raw :: out, o)
  end.

(** [task_progress_ws]: the Redis subscription when a client is
    configured, and the polling loop when none is or when the
    subscription raised. *)
Definition task_progress_ws (redis_configured : bool) (items : list item)
    (tid : string) (polls : list (option GenerationTask))
  : list (relay_event + ws_event) :=
  if redis_configured then
    match relay items with
    | (out, fell_back) => map inl out ++ map inr (poll_loop tid None polls)
    | (out, _) => map inl out
    end
  else map inr (poll_loop tid None polls).

End StreamRedis.

(* ===================================================================== *)
(** ** task_progress_ws: the polling loop with lookups that raise *)
(* ===================================================================== *)

Module StreamFallback.
Import Tasks Stream.

(** What the handler does on the websocket: the events of the loop, and
    the [{"error": "internal_error", "detail": str(e)}] message of its
    [except Exception as e] branch. *)
Inductive event : Type :=
| loop_event (e : ws_event)
| send_internal_error (detail : string).

(** The polling loop inside the [try] of the handler.  A lookup returns
    what it found ([inr]) or raises ([inl], with the text of the
    exception); an exception leaves the loop for the [except] branch,
    which sends the [internal_error] message and closes.  The client is
    taken to stay connected, so that what the handler sends is
    accepted. *)
Fixpoint poll_loop (tid : string) (last_status : option TaskStatus)
    (polls : list (string + option GenerationTask)) : list event :=
  match polls with
  | [] => []
  | inl detail :: _ => [send_internal_error detail; loop_event close]
  | inr None :: rest =>
      loop_event (send_json (task_not_found tid)) :: poll_loop tid last_status rest
  | inr (Some task) :: rest =>
      let changed := negb (bool_decide (Some (status task) = last_status)) in
      let update :=
        if changed then [loop_event (send_json (payload_of task))] else [] in
      let last_status' := if changed then Some (status task) else last_status in
      if terminal (status task)
      then update ++ [loop_event (send_json (payload_of task)); loop_event close]
      else update ++ poll_loop tid last_status' rest
  end.

End StreamFallback.

(* ===================================================================== *)
(** ** collaboration_api_db.py: the session endpoints *)
(* ===================================================================== *)

Module CollabApi.
Import Roster Roster.CollaborationSession.
Import TaskApi.

(** [str(e)] of the exception that the roster methods raise into the
    endpoints: the [ValueError] of [add_participant] with its message. *)
Definition str (e : exn) : string :=
  match e with
  | ValueError msg => msg
  | _ => ""
  end.

(** The answer of the [except Exception as e] branch of an endpoint. *)
Definition failed {A} (what text : string) : response A :=
  http_error 500 (String.append what (String.append ": " text)).

(** The two saves that follow a roster change in every endpoint: the one
    inside the roster method and the [await session.save()] of the
    endpoint.  Each writes the document when the store accepts it and
    raises otherwise; what an earlier save wrote stays written. *)
Definition save_twice (db : gmap string Session) (id : string)
    (session : Session) (what : string) (ok : response string)
    (save save' : store_reply) : gmap string Session * response string :=
  match save with
  | refused text => (db, failed what text)
  | accepted =>
      let db1 := <[id := session]> db in
      match save' with
      | refused text => (db1, failed what text)
      | accepted => (db1, ok)
      end
  end.

(** [create_session].  The caller must be the creator; the session is
    built with the defaults of the model, the creator is added as its
    first participant with the role [ADMIN], and the document is saved
    under the id the store gives it.  Any exception, the capacity error
    of [add_participant] included, is answered with a 500 that quotes its
    text.  The answer of a success is rendered by the id. *)
Definition create_session (db : gmap string Session) (new_id : string)
    (name creator_id : string) (max_participants : Z)
    (current_user_id username : string) (now : Z) (save save' : store_reply)
  : gmap string Session * response string :=
  if negb (String.eqb creator_id current_user_id) then
    (db, http_error 403 "Not allowed to create session for another user")
  else
    let session := mk creator_id name true max_participants [] None None now in
    match add_participant session creator_id username ADMIN now with
    | inr session' =>
        save_twice db new_id session' "Failed to create session"
          (content new_id) save save'
    | inl e => (db, failed "Failed to create session" (str e))
    end.

(** [join_session]: [user_data.get("user_id")] must be the caller; the
    user name defaults to [user_<id>].  [get] is the outcome of
    [CollaborationSession.get(session_id)], which raises for an id the
    store cannot parse and when the store cannot be reached. *)
Definition join_session (db : gmap string Session) (session_id : string)
    (user_id username : option string) (current_user_id : string) (now : Z)
    (get save save' : store_reply)
  : gmap string Session * response string :=
  if negb (bool_decide (user_id = Some current_user_id)) then
    (db, http_error 403 "Not allowed to join as another user")
  else
    match get with
    | refused text => (db, failed "Failed to join session" text)
    | accepted =>
        match db !! session_id with
        | None => (db, http_error 404 "Session not found")
        | Some session =>
            let name := default (String.append "user_" current_user_id) username in
            match add_participant session current_user_id name EDITOR now with
            | inr session' =>
                save_twice db session_id session' "Failed to join session"
                  (content "Successfully joined session") save save'
            | inl e => (db, failed "Failed to join session" (str e))
            end
        end
    end.

(** [leave_session]. *)
Definition leave_session (db : gmap string Session) (session_id : string)
    (user_id : option string) (current_user_id : string) (now : Z)
    (get save save' : store_reply)
  : gmap string Session * response string :=
  if negb (bool_decide (user_id = Some current_user_id)) then
    (db, http_error 403 "Not allowed to leave as another user")
  else
    match get with
    | refused text => (db, failed "Failed to leave session" text)
    | accepted =>
        match db !! session_id with
        | None => (db, http_error 404 "Session not found")
        | Some session =>
            save_twice db session_id
              (remove_participant session current_user_id now)
              "Failed to leave session"
              (content "Successfully left session") save save'
        end
    end.

(** [get_session]: only a participant or the host may view the session. *)
Definition get_session (db : gmap string Session) (session_id : string)
    (current_user_id : string) (get : store_reply) : response Session :=
  match get with
  | refused text => failed "Failed to get session" text
  | accepted =>
      match db !! session_id with
      | None => http_error 404 "Session not found"
      | Some session =>
          let is_participant :=
            existsb (fun p => String.eqb (SessionParticipant.user_id p) current_user_id)
                    (participants session) in
          if negb is_participant &&
             negb (String.eqb (host_user_id session) current_user_id)
          then http_error 403 "Not authorized to view this session"
          else content session
      end
  end.

End CollabApi.

(* ===================================================================== *)
(** ** websocket_manager.py: session views and invites *)
(* ===================================================================== *)

Module RegistryViews.
Import Registry.

Definition get_session_info (m : ConnectionManager) (session_id : string)
  : option session_meta :=
  sessions m !! session_id.

(** One dictionary of the list that [list_active_sessions] returns. *)
Record session_entry : Type := mkEntry {
  entry_session_id : string;
  entry_participants_count : nat;
  entry_participants : list user_info;
  entry_created_at : Z
}.

(** The comprehension of [list_active_sessions] over the items of
    [active_connections]: a session with an empty connection set is
    skipped, and [self.sessions[session_id]] raises for a missing entry.
    The items come in the order of [map_to_list]; the order in which the
    dictionary of the code yields them, that of their insertion, is not
    represented, and the statements about the list speak of its members
    only. *)
Fixpoint list_sessions_from (m : ConnectionManager)
    (items : list (string * gset WebSocket)) : M (list session_entry) :=
  match items with
  | [] => ret []
  | (session_id, connections) :: rest =>
      if bool_decide (connections = ∅) then list_sessions_from m rest
      else
        meta ← getitem (sessions m) session_id;
        entries ← list_sessions_from m rest;
        ret (mkEntry session_id (size connections) (meta_participants meta)
                     (meta_created_at meta) :: entries)
  end.

Definition list_active_sessions (m : ConnectionManager) : M (list session_entry) :=
  list_sessions_from m (map_to_list (active_connections m)).




End RegistryViews.

(* ===================================================================== *)
(** ** websocket_manager.py: what the endpoint passes to handle_message *)
(* ===================================================================== *)

Module RegistryInbound.
Import Registry.

(** What [json.loads] returns for the text of a client, and the endpoint
    passes on unchecked: a JSON object, here one whose entry ['type'] is a
    string, or a JSON value that is not an object (a number, a string, a
    list, [null]), which has no method [get]. *)
Inductive json : Type :=
| json_object (type : string) (body : string)
| json_value.

(** [handle_message]: [message.get('type')] is its first statement, before
    the socket is looked up, and raises on a value that is not an
    object. *)
Definition handle_message (w : world) (websocket : WebSocket) (message : json)
    (loop_time : Z) : M world :=
  match message with
  | json_value => raise AttributeError
  | json_object type body =>
      Registry.handle_message w websocket type body loop_time
  end.

Definition handle_message_async (websocket : WebSocket) (message : json)
    (loop_time : Z) : coro :=
  match message with
  | json_value => Yield (fun _ => raise AttributeError)
  | json_object type body =>
      Registry.handle_message_async websocket type body loop_time
  end.

End RegistryInbound.

(* ===================================================================== *)
(** * Vocabulary of the statements

    Invariants, the effect of one broadcast round, and the worlds of the
    scenarios.  Nothing here is part of the program. *)
(* ===================================================================== *)

Section TaskVocabulary.
Import Tasks.

(** What every system reached from [init] satisfies: documents sit under
    their own id, a queued id occurs once in the queue and its document is
    still [queued], and the task the worker is generating is [running] in
    the store and no longer in the queue. *)
Record wf (sys : system) : Prop := mkWf {
  wf_keys : ∀ id t, store sys !! id = Some t → task_id t = id;
  wf_nodup : NoDup (_job_queue sys);
  wf_queued : ∀ id, id ∈ _job_queue sys →
      ∃ t, store sys !! id = Some t ∧ status t = queued;
  wf_flight : ∀ t, in_flight sys = Some t →
      store sys !! task_id t = Some t ∧ status t = running ∧
      task_id t ∉ _job_queue sys
}.

(** A record that the worker is done with: its id is neither in the queue
    nor the one of the task in flight. *)
Definition settled (sys : system) (id : string) : Prop :=
  (id ∉ _job_queue sys) ∧ ∀ t, in_flight sys = Some t → task_id t ≠ id.

(** One step never lowers a status and never rewrites a terminal record. *)
Definition advances (sys sys' : system) : Prop :=
  ∀ id t, store sys !! id = Some t →
    ∃ t', store sys' !! id = Some t' ∧
          (rank (status t) ≤ rank (status t'))%nat ∧
          (terminal (status t) = true → t' = t).

End TaskVocabulary.

Section StreamVocabulary.
Import Tasks Stream.

(** A poll that does not find the task in a terminal status. *)
Definition non_terminal_poll (o : option GenerationTask) : Prop :=
  ∀ t, o = Some t → terminal (status t) = false.

(** An event that is neither a terminal message nor the close. *)
Definition quiet (e : ws_event) : Prop :=
  is_terminal_message e = false ∧ e ≠ close.

(** A lookup after which the handler closes the connection: it raised, or
    it found the task in a terminal status. *)
Definition stops (p : string + option GenerationTask) : Prop :=
  match p with
  | inl _ => True
  | inr (Some t) => terminal (status t) = true
  | inr None => False
  end.

(** The task "T" as a poll finds it in a given status. *)
Definition stream_task (st : Tasks.TaskStatus) : Tasks.GenerationTask :=
  Tasks.mkTask "T" st "{}" None None None 0 0.

End StreamVocabulary.

Section RosterVocabulary.
Import Roster Roster.CollaborationSession.

(** The user ids of the entries of a session, in order. *)
Definition ids (s : Session) : list string :=
  map SessionParticipant.user_id (participants s).

(** The session "Standup" with room for two and nobody in it. *)
Definition standup (capacity : Z) : Roster.CollaborationSession.t :=
  Roster.CollaborationSession.mk "A" "Standup" true capacity [] None None 0.

End RosterVocabulary.

Section RegistryVocabulary.
Import Registry.

(** The three ways one round of the broadcast loop can go. *)
Inductive round (sid : string) (msg : message) (ex : option WebSocket)
    (w : world) (c : WebSocket) (w' : world) : Prop :=
| round_skip : ex = Some c → w' = w → round sid msg ex w c w'
| round_sent : ex ≠ Some c → c ∉ broken (net w) →
    w' = with_net w (mkNetwork (broken (net w))
           (<[c := inbox w c ++ [msg]]> (received (net w)))) →
    round sid msg ex w c w'
| round_failed conns : ex ≠ Some c → c ∈ broken (net w) →
    active_connections (manager w) !! sid = Some conns →
    w' = with_manager w
           (mkManager (<[sid := conns ∖ {[c]}]> (active_connections (manager w)))
                      (delete c (user_connections (manager w)))
                      (sessions (manager w))
                      (user_id_connections (manager w))) →
    round sid msg ex w c w'.

(** What a broadcast over the connections [l] leaves untouched, and what
    it does to each connection. *)
Record broadcast_post (sid : string) (msg : message) (ex : option WebSocket)
    (l : list WebSocket) (w w' : world) : Prop := mkPost {
  post_db : db w' = db w;
  post_broken : broken (net w') = broken (net w);
  post_sessions : sessions (manager w') = sessions (manager w);
  post_uidc : user_id_connections (manager w') = user_id_connections (manager w);
  post_other : ∀ sid', sid' ≠ sid →
    active_connections (manager w') !! sid' = active_connections (manager w) !! sid';
  post_conns : ∀ conns, active_connections (manager w) !! sid = Some conns →
    ∃ conns', active_connections (manager w') !! sid = Some conns' ∧
      ∀ c, c ∈ conns' ↔
           c ∈ conns ∧ ¬ (c ∈ l ∧ c ∈ broken (net w) ∧ ex ≠ Some c);
  post_inbox : ∀ c,
    inbox w' c =
      if decide (c ∈ l ∧ (c ∉ broken (net w)) ∧ ex ≠ Some c)
      then inbox w c ++ [msg] else inbox w c;
  post_uc : ∀ c,
    user_connections (manager w') !! c =
      if decide (c ∈ l ∧ c ∈ broken (net w) ∧ ex ≠ Some c)
      then None else user_connections (manager w) !! c
}.

(** Every session with a connection set has its metadata entry; [connect]
    creates the two together and [disconnect] deletes them together. *)
Definition sessions_cover (m : ConnectionManager) : Prop :=
  ∀ sid, is_Some (active_connections m !! sid) → is_Some (sessions m !! sid).


(** A suspended computation run to its end with no other handler in
    between. *)
Definition run_k (k : world → M (world * coro)) (w : world) : M world :=
  match k w with
  | inl e => inl e
  | inr (w', c') => run_alone c' w'
  end.

End RegistryVocabulary.

Section SchedulingVocabulary.
Import Registry.

(** What the handlers of other connections leave alone while the handler
    of the socket [ws] in the session [sid] is suspended, for the results
    about that handler to hold: the connection set and the metadata of the
    session, the entries of the socket in the socket map and in the
    user-keyed map, its inbox, whether it is alive, and the durable
    document of the session.  [w] is the world when the handler was
    suspended and [w0] the world when it is resumed.  Handlers that serve
    the connections of other sessions stay within this. *)
Record undisturbed (sid : string) (ws : WebSocket) (w w0 : world) : Prop :=
  mkUndisturbed {
  und_conns :
    active_connections (manager w0) !! sid = active_connections (manager w) !! sid;
  und_meta : sessions (manager w0) !! sid = sessions (manager w) !! sid;
  und_socket :
    user_connections (manager w0) !! ws = user_connections (manager w) !! ws;
  und_user : ∀ uid socks,
    user_id_connections (manager w) !! uid = Some socks → ws ∈ socks →
    ∃ socks0, user_id_connections (manager w0) !! uid = Some socks0 ∧ ws ∈ socks0;
  und_inbox : inbox w0 ws = inbox w ws;
  und_alive : ws ∈ broken (net w0) ↔ ws ∈ broken (net w);
  und_doc : collab_sessions (db w0) !! sid = collab_sessions (db w) !! sid
}.

(** A coroutine run to its end among other handlers: before each of its
    resumptions the others have changed the world within [E], and the run
    ends when the coroutine is done or raises. *)
Inductive runs_among (E : world → world → Prop) : coro → world → M world → Prop :=
| runs_done w : runs_among E Done w (ret w)
| runs_raise resume w w0 e :
    E w w0 → resume w0 = raise e → runs_among E (Yield resume) w (raise e)
| runs_step resume w w0 w1 c r :
    E w w0 → resume w0 = ret (w1, c) → runs_among E c w1 r →
    runs_among E (Yield resume) w r.

(** What the handlers of other connections do between two resumptions of
    a coroutine when nothing restrains them: they handle messages and they
    disconnect sockets, any number of times. *)
Inductive others_act : world → world → Prop :=
| others_nothing w : others_act w w
| others_message w ws type body t w1 w2 :
    handle_message w ws type body t = ret w1 → others_act w1 w2 →
    others_act w w2
| others_disconnect w ws w1 ts w2 :
    disconnect w ws = ret (w1, ts) → others_act w1 w2 → others_act w w2.





End SchedulingVocabulary.

(** *** Scenario: the session "Standup" with room for two *)

Definition alice : Registry.user_info := Registry.mkUser (Some "A") (Some "alice").
Definition bob : Registry.user_info := Registry.mkUser (Some "B") (Some "bob").

Definition standup_world : Registry.world :=
  Registry.mkWorld (Registry.mkManager ∅ ∅ ∅ ∅) (Registry.mkNetwork ∅ ∅)
    (Registry.mkDurable {["s" := standup 2]} []).

(** A join of the session "s"; a call that raised would leave the world. *)
Definition join (w : Registry.world) (ws : Registry.WebSocket)
    (ui : Registry.user_info) : Registry.world :=
  match Registry.connect w ws "s" ui "uuid" 0 0 with
  | inr w' => w'
  | inl _ => w
  end.

Definition one_joined : Registry.world := join standup_world 1%nat alice.
Definition two_joined : Registry.world := join one_joined 2%nat bob.

Definition durable_ids (w : Registry.world) : option (list string) :=
  ids <$> Registry.collab_sessions (Registry.db w) !! "s".

Definition live_roster (w : Registry.world) : option (list Registry.user_info) :=
  Registry.meta_participants <$> Registry.sessions (Registry.manager w) !! "s".

Definition live_sockets (w : Registry.world) : option (list Registry.WebSocket) :=
  elements <$> Registry.active_connections (Registry.manager w) !! "s".

(** *** Scenario: A in the session "s", C in the session "t" *)


(** *** Scenario: A connected twice, B once *)

Definition two_tabs : Registry.world :=
  join (join one_joined 2%nat alice) 3%nat bob.

(** The client of a socket goes away: sends on it raise from now on. *)
Definition break_socket (w : Registry.world) (ws : Registry.WebSocket)
  : Registry.world :=
  Registry.with_net w
    (Registry.mkNetwork (Registry.broken (Registry.net w) ∪ {[ws]})
                        (Registry.received (Registry.net w))).

Definition sockets_of (w : Registry.world) (uid : string)
  : option (list Registry.WebSocket) :=
  elements <$> Registry.user_id_connections (Registry.manager w) !! uid.


(** *** Quota: repeated calls *)

(** [n] successive calls of the guard for one user and one cost; the
    state after the last call and the number of calls that were allowed. *)
Fixpoint repeat_debit (DEFAULT_QUOTA : Z) (n : nat) (st : Quota.state)
    (user_id : option string) (cost : Z) : Quota.state * nat :=
  match n with
  | O => (st, O)
  | S n' =>
      let '(st1, ok) :=
        Quota.check_and_debit_user_quota DEFAULT_QUOTA st user_id cost in
      let '(st2, k) := repeat_debit DEFAULT_QUOTA n' st1 user_id cost in
      (st2, if ok then S k else k)
  end.

(** A reachable Redis that holds 50 for the user "b", beside a process
    that holds 7 for the same user. *)
Definition both_stores : Quota.state :=
  Quota.mkState (Some (Quota.mkRedis true {[Quota.key "b" := 50]})) {["b" := 7]}.

(** The integers up to which the numbers of the Lua script are exact. *)
Definition lua_exact : Z := 2 ^ 53.

(** The call works on numbers that the script handles exactly: when a
    reachable client is configured, the cost, the default quota and the
    stored values are between zero and [lua_exact]. *)
Definition script_exact (DEFAULT_QUOTA : Z) (st : Quota.state) (cost : Z) : Prop :=
  ∀ r, Quota._redis_client st = Some r → Quota.reachable r = true →
    0 ≤ cost ≤ lua_exact ∧ 0 ≤ DEFAULT_QUOTA ≤ lua_exact ∧
    ∀ k v, Quota.keys r !! k = Some v → 0 ≤ v ≤ lua_exact.

(** No balance, in Redis or in the process, is negative or beyond the
    integers the script handles exactly. *)
Definition solvent (st : Quota.state) : Prop :=
  (∀ uid bal, Quota._local_quota st !! uid = Some bal → 0 ≤ bal ≤ lua_exact) ∧
  (∀ r k bal, Quota._redis_client st = Some r →
              Quota.keys r !! k = Some bal → 0 ≤ bal ≤ lua_exact).

(** *** Tasks: submission order and the fields of a record *)


(** The result and error fields as they go with each status. *)
Definition fields_match (t : Tasks.GenerationTask) : Prop :=
  match Tasks.status t with
  | Tasks.queued | Tasks.running =>
      Tasks.result t = None ∧ Tasks.error t = None
  | Tasks.completed => is_Some (Tasks.result t) ∧ Tasks.error t = None
  | Tasks.failed => is_Some (Tasks.error t)
  end.

(** The parts of a record that are fixed at submission. *)
Definition same_origin (t t' : Tasks.GenerationTask) : Prop :=
  Tasks.task_id t' = Tasks.task_id t ∧
  Tasks.request t' = Tasks.request t ∧
  Tasks.created_at t' = Tasks.created_at t.

(** [k] requests to [generate_project_async] in a row, each with its own
    id, payload, clock and insert outcome. *)
Fixpoint submit_all (w : TaskApi.worker) (sys : Tasks.system)
    (reqs : list (string * string * Z * store_reply))
  : option (TaskApi.worker * Tasks.system) :=
  match reqs with
  | [] => Some (w, sys)
  | (id, req, now, ok) :: reqs' =>
      match TaskApi.generate_project_async w sys id req now ok with
      | Some (w', sys', _) => submit_all w' sys' reqs'
      | None => None
      end
  end.

(** *** Status stream: what was sent *)

(** The statuses of the task messages among the events, in order. *)
Fixpoint sent_statuses (out : list Stream.ws_event) : list Tasks.TaskStatus :=
  match out with
  | [] => []
  | Stream.send_json (Stream.task_payload _ st _ _ _) :: out' =>
      st :: sent_statuses out'
  | _ :: out' => sent_statuses out'
  end.

(** No status in the list equals the one before it, the first not the
    given one. *)
Fixpoint no_repeat (last : option Tasks.TaskStatus)
    (l : list Tasks.TaskStatus) : Prop :=
  match l with
  | [] => True
  | s :: l' => Some s ≠ last ∧ no_repeat (Some s) l'
  end.

(** A pub/sub item that neither closes the stream nor ends the
    subscription. *)
Definition passing (i : StreamRedis.item) : Prop :=
  match i with
  | StreamRedis.item_none | StreamRedis.item_other _ => True
  | StreamRedis.item_message (StreamRedis.json_object _ status error) =>
      StreamRedis.closing status error = false
  | _ => False
  end.

(** The raw data of the messages among the items, in order. *)
Fixpoint raws (items : list StreamRedis.item) : list string :=
  match items with
  | [] => []
  | StreamRedis.item_message (StreamRedis.json_object raw _ _) :: rest
  | StreamRedis.item_message (StreamRedis.json_other raw) :: rest =>
      raw :: raws rest
  | _ :: rest => raws rest
  end.

(** *** Registry: the in-memory roster *)


(** * Properties *)

(* --------------------------------------------------------------------- *)
(** ** Quota guard *)
(* --------------------------------------------------------------------- *)

Section QuotaProperties.
Import Quota.
Variable DEFAULT_QUOTA : Z.

(** With an entry already recorded in the process-local dictionary, the
    fallback debits exactly when the entry covers the cost. *)
Lemma local_branch_known (q : gmap string Z) uid entry cost :
  q !! uid = Some entry →
  local_branch DEFAULT_QUOTA q uid cost =
    if entry <? cost then (q, false) else (<[uid := entry - cost]> q, true).
Proof. intros Hq. unfold local_branch. by rewrite Hq. Qed.

(** On a reachable Redis backend the guard debits exactly when the balance
    covers the cost, also on a user's first call. *)
Lemma redis_branch_reachable (ks : gmap string Z) uid cost :
  let bal := default DEFAULT_QUOTA (ks !! key uid) in
  redis_branch DEFAULT_QUOTA (mkRedis true ks) uid cost =
    if bal <? cost
    then ret (mkRedis true (<[key uid := bal]> ks), false)
    else ret (mkRedis true (<[key uid := bal - cost]> ks), true).
Proof.
  unfold redis_branch, lua_check_and_decr; simpl.
  destruct (ks !! key uid) as [v|] eqn:Hk; simpl.
  - rewrite Hk; simpl. destruct (v <? cost) eqn:Hlt.
    + rewrite insert_id by done. done.
    + simpl. do 3 f_equal. lia.
  - rewrite lookup_insert_eq; simpl.
    destruct (DEFAULT_QUOTA <? cost) eqn:Hlt; simpl.
    + done.
    + rewrite insert_insert_eq. do 3 f_equal. lia.
Qed.

(** Where the guard does what its docstring says: for a user id that is
    not empty, on a reachable Redis backend, or in the process-local
    dictionary once the user has an entry or when the cost is within the
    default quota, the call is allowed exactly when the balance covers the
    cost, and the balance is debited exactly then. *)
Lemma check_and_debit_sound (st : state) (uid : string) (cost : Z) :
  uid ≠ "" →
  ((∀ r, _redis_client st = Some r → reachable r = false) →
   _local_quota st !! uid = None → cost ≤ DEFAULT_QUOTA) →
  let bal := stored_balance DEFAULT_QUOTA st uid in
  let r := check_and_debit_user_quota DEFAULT_QUOTA st (Some uid) cost in
  snd r = negb (bal <? cost) ∧
  stored_balance DEFAULT_QUOTA (fst r) uid =
    if bal <? cost then bal else bal - cost.
Proof.
  intros Huid Hfirst.
  assert (Ht : truthy (Some uid) = true).
  { simpl. by destruct (String.eqb_spec uid ""). }
  assert (Hlocal : (∀ r, _redis_client st = Some r → reachable r = false) →
    let bal := default DEFAULT_QUOTA (_local_quota st !! uid) in
    let q := local_branch DEFAULT_QUOTA (_local_quota st) uid cost in
    snd q = negb (bal <? cost) ∧
    default DEFAULT_QUOTA (fst q !! uid) = if bal <? cost then bal else bal - cost).
  { intros Hdown. unfold local_branch.
    destruct (_local_quota st !! uid) as [entry|] eqn:Hq; simpl.
    - destruct (entry <? cost) eqn:Hlt; simpl.
      + by rewrite Hq.
      + by rewrite lookup_insert_eq.
    - specialize (Hfirst Hdown eq_refl).
      destruct (Z.ltb_spec DEFAULT_QUOTA cost); [lia|].
      simpl. by rewrite lookup_insert_eq. }
  unfold check_and_debit_user_quota, stored_balance. rewrite Ht. simpl.
  destruct (_redis_client st) as [[up ks]|] eqn:Hr.
  - destruct up.
    + rewrite redis_branch_reachable. simpl.
      destruct (default DEFAULT_QUOTA (ks !! key uid) <? cost); simpl;
        by rewrite lookup_insert_eq.
    + unfold redis_branch. simpl.
      destruct Hlocal as [Hok Hbal].
      { intros r [= <-]. done. }
      destruct (local_branch DEFAULT_QUOTA (_local_quota st) uid cost) as [q ok].
      simpl in *. done.
  - destruct Hlocal as [Hok Hbal]; [done|].
    destruct (local_branch DEFAULT_QUOTA (_local_quota st) uid cost) as [q ok].
    simpl in *. done.
Qed.

End QuotaProperties.

(** C10. An empty or a missing user id is always allowed, and neither the
    Redis counter nor the process-local counter is read or written: the
    state is returned as it was. *)
Theorem check_and_debit_without_user_id :
  ∀ (DEFAULT_QUOTA : Z) (st : Quota.state) (cost : Z),
    Quota.check_and_debit_user_quota DEFAULT_QUOTA st None cost = (st, true) ∧
    Quota.check_and_debit_user_quota DEFAULT_QUOTA st (Some "") cost = (st, true).
Proof. intros D st cost. split; reflexivity. Qed.

(** C7 (defect). With no Redis client, a default quota of 100 and a user
    that was never debited, a call of cost 101 finds a balance of 100,
    below the cost, and yet returns [True] and stores the balance -1. *)
Theorem check_and_debit_first_call_overdraws :
  let st := Quota.mkState None ∅ in
  Quota.stored_balance 100 st "u" = 100 ∧
  Quota.check_and_debit_user_quota 100 st (Some "u") 101
    = (Quota.mkState None {["u" := -1]}, true).
Proof.
  split.
  - reflexivity.
  - unfold Quota.check_and_debit_user_quota, Quota.local_branch; simpl.
    rewrite lookup_empty. by rewrite insert_empty.
Qed.

(* --------------------------------------------------------------------- *)
(** ** Task records under the worker *)
(* --------------------------------------------------------------------- *)

Section TaskProperties.
Import Tasks.

Lemma wf_init : wf init.
Proof.
  split; simpl.
  - intros id t. by rewrite lookup_empty.
  - constructor.
  - intros id Hin. by apply not_elem_of_nil in Hin.
  - done.
Qed.

Lemma advances_refl sys : advances sys sys.
Proof. intros id t Ht. exists t. auto. Qed.

Lemma advances_same_store sys q fl : advances sys (mkSystem (store sys) q fl).
Proof. intros id t Ht. exists t. auto. Qed.

Lemma advances_trans s1 s2 s3 :
  advances s1 s2 → advances s2 s3 → advances s1 s3.
Proof.
  intros H12 H23 id t Ht.
  destruct (H12 id t Ht) as (t2 & Ht2 & Hr2 & Hx2).
  destruct (H23 id t2 Ht2) as (t3 & Ht3 & Hr3 & Hx3).
  exists t3. split; [done|]. split; [lia|].
  intros Hterm. specialize (Hx2 Hterm). subst t2. auto.
Qed.

(** Writing a record of higher rank over a non-terminal one advances. *)
Lemma advances_overwrite sys db q fl (t0 t1 : GenerationTask) :
  store sys !! task_id t1 = Some t0 →
  terminal (status t0) = false →
  (rank (status t0) ≤ rank (status t1))%nat →
  db = <[task_id t1 := t1]> (store sys) →
  advances sys (mkSystem db q fl).
Proof.
  intros H0 Hnt Hrk -> id t Ht; simpl.
  destruct (decide (task_id t1 = id)) as [<-|Hne].
  - rewrite lookup_insert_eq. exists t1. rewrite H0 in Ht. injection Ht as <-.
    split; [done|]. split; [done|]. congruence.
  - rewrite lookup_insert_ne by done. exists t. auto.
Qed.

Lemma submit_wf sys id req now sys' :
  wf sys → submit sys id req now = Some sys' → wf sys' ∧ advances sys sys'.
Proof.
  intros [Hk Hn Hq Hf]. unfold submit.
  destruct (store sys !! id) eqn:Hfresh; [done|]. intros [= <-].
  assert (Hnotin : id ∉ _job_queue sys).
  { intros Hin. destruct (Hq id Hin) as (t & Ht & _). congruence. }
  split; [split; simpl|].
  - intros id' t. destruct (decide (id = id')) as [<-|Hne].
    + rewrite lookup_insert_eq. by intros [= <-].
    + rewrite lookup_insert_ne by done. apply Hk.
  - apply NoDup_app. split; [done|]. split.
    + intros x Hx Hx'. apply list_elem_of_singleton in Hx'. by subst.
    + apply NoDup_singleton.
  - intros id' Hin. apply elem_of_app in Hin as [Hin|Hin].
    + destruct (Hq id' Hin) as (t & Ht & Hs). exists t.
      rewrite lookup_insert_ne; [done|]. intros ->. done.
    + apply list_elem_of_singleton in Hin as ->. rewrite lookup_insert_eq.
      eexists. split; [done|]. done.
  - intros t Ht. destruct (Hf t Ht) as (Hs & Hr & Hni).
    assert (id ≠ task_id t) by congruence.
    rewrite lookup_insert_ne by done. split; [done|]. split; [done|].
    intros Hin. apply elem_of_app in Hin as [Hin|Hin]; [done|].
    apply list_elem_of_singleton in Hin. done.
  - intros id' t Ht; simpl. exists t.
    rewrite lookup_insert_ne; [auto|]. intros ->. congruence.
Qed.

Lemma worker_dequeue_wf sys now ok sys' :
  wf sys → worker_dequeue sys now ok = Some sys' → wf sys' ∧ advances sys sys'.
Proof.
  intros [Hk Hn Hq Hf]. unfold worker_dequeue.
  destruct (in_flight sys) eqn:Hfl; [done|].
  destruct (_job_queue sys) as [|id rest] eqn:Hqueue.
  { intros [= <-]. split; [|apply advances_refl]. split; try done.
    - by rewrite Hqueue.
    - by rewrite Hqueue.
    - by rewrite Hfl. }
  apply NoDup_cons in Hn as [Hid Hrest].
  assert (Hq' : ∀ i, i ∈ rest → ∃ t, store sys !! i = Some t ∧ status t = queued).
  { intros i Hi. apply Hq. by right. }
  destruct (Hq id) as (t & Ht & Hst); [by left|]. rewrite Ht.
  destruct ok; simpl; intros [= <-].
  - pose proof (Hk id t Ht) as Hid'. split; [split; simpl|].
    + intros id' t'. rewrite Hid'.
      destruct (decide (id = id')) as [<-|Hne].
      * rewrite lookup_insert_eq. by intros [= <-].
      * rewrite lookup_insert_ne by done. apply Hk.
    + done.
    + intros i Hi. destruct (Hq' i Hi) as (ti & Hti & Hsi). exists ti.
      rewrite Hid'. rewrite lookup_insert_ne; [done|]. by intros ->.
    + intros t1 [= <-]; simpl. rewrite lookup_insert_eq, Hid'. done.
    + eapply advances_overwrite with (t0 := t) (t1 := mark_running t now); simpl.
      * by rewrite Hid'.
      * by rewrite Hst.
      * rewrite Hst; simpl; lia.
      * done.
  - split; [split; simpl; try done|apply advances_same_store].
Qed.

Lemma worker_finish_wf sys outcome now ok ok' sys' :
  wf sys → worker_finish sys outcome now ok ok' = Some sys' →
  wf sys' ∧ advances sys sys'.
Proof.
  intros [Hk Hn Hq Hf]. unfold worker_finish.
  destruct (in_flight sys) as [t|] eqn:Hfl; [|done].
  destruct (Hf t eq_refl) as (Hst & Hrun & Hni).
  assert (Hover : ∀ t1, task_id t1 = task_id t → terminal (status t1) = true →
            wf (mkSystem (<[task_id t1 := t1]> (store sys)) (_job_queue sys) None) ∧
            advances sys (mkSystem (<[task_id t1 := t1]> (store sys)) (_job_queue sys) None)).
  { intros t1 Hid Hterm. split; [split; simpl|].
    - intros id' t'. destruct (decide (task_id t1 = id')) as [<-|Hne].
      + rewrite lookup_insert_eq. by intros [= <-].
      + rewrite lookup_insert_ne by done. apply Hk.
    - done.
    - intros i Hi. destruct (Hq i Hi) as (ti & Hti & Hsi). exists ti.
      assert (task_id t1 ≠ i) by (intros <-; congruence).
      by rewrite lookup_insert_ne.
    - done.
    - eapply advances_overwrite with (t0 := t); [by rewrite Hid|by rewrite Hrun| |done].
      rewrite Hrun. destruct (status t1); simpl in *; try done; lia. }
  assert (Hsame : wf (mkSystem (store sys) (_job_queue sys) None) ∧
            advances sys (mkSystem (store sys) (_job_queue sys) None)).
  { split; [by split|apply advances_same_store]. }
  destruct outcome as [err|payload]; simpl.
  - destruct ok'; simpl; intros [= <-]; [|done].
    by apply (Hover (mark_failed t err now)).
  - destruct ok; simpl.
    { intros [= <-]. by apply (Hover (mark_completed t payload None now)). }
    destruct ok'; simpl; intros [= <-]; [|done].
    by apply (Hover (mark_failed (mark_completed t payload None now) "save failed" now)).
Qed.

Lemma step_wf sys e sys' :
  wf sys → step sys e = Some sys' → wf sys' ∧ advances sys sys'.
Proof.
  destruct e; simpl;
    eauto using submit_wf, worker_dequeue_wf, worker_finish_wf.
Qed.

Lemma run_wf es : ∀ sys sys',
  wf sys → run sys es = Some sys' → wf sys' ∧ advances sys sys'.
Proof.
  induction es as [|e es IH]; simpl; intros sys sys' Hwf.
  - intros [= <-]. split; [done|apply advances_refl].
  - destruct (step sys e) as [sys1|] eqn:Hstep; [|done]. intros Hrun.
    destruct (step_wf _ _ _ Hwf Hstep) as [Hwf1 Hadv1].
    destruct (IH _ _ Hwf1 Hrun) as [Hwf' Hadv'].
    split; [done|]. eapply advances_trans; eauto.
Qed.

(** A record the worker is done with is never written again. *)
Lemma step_settled sys e sys' id t :
  wf sys → step sys e = Some sys' →
  store sys !! id = Some t → settled sys id →
  store sys' !! id = Some t ∧ settled sys' id.
Proof.
  intros [Hk Hn Hq Hf] Hstep Ht [Hni Hfl].
  destruct e as [id' req now|now ok|outcome now ok ok']; simpl in Hstep.
  - unfold submit in Hstep. destruct (store sys !! id') eqn:Hfresh; [done|].
    injection Hstep as <-. assert (id' ≠ id) by congruence. simpl.
    split; [by rewrite lookup_insert_ne|]. split; simpl; [|done].
    intros Hin. apply elem_of_app in Hin as [Hin|Hin]; [done|].
    apply list_elem_of_singleton in Hin. done.
  - unfold worker_dequeue in Hstep.
    destruct (in_flight sys) eqn:Hnone; [done|].
    destruct (_job_queue sys) as [|id' rest] eqn:Hqueue.
    { injection Hstep as <-. split; [done|]. split; [by rewrite Hqueue|].
      by rewrite Hnone. }
    assert (Hne : id' ≠ id) by (intros ->; apply Hni; by left).
    assert (Hrest : id ∉ rest) by (intros Hin; apply Hni; by right).
    destruct (store sys !! id') as [t'|] eqn:Ht'.
    + pose proof (Hk id' t' Ht') as Hid.
      destruct ok; simpl in Hstep; injection Hstep as <-; simpl.
      * rewrite Hid. split; [by rewrite lookup_insert_ne|].
        split; simpl; [done|]. intros t1 [= <-]. simpl. by rewrite Hid.
      * split; [done|]. by split.
    + injection Hstep as <-. split; [done|]. by split.
  - unfold worker_finish in Hstep.
    destruct (in_flight sys) as [t0|] eqn:Hsome; [|done].
    pose proof (Hfl t0 eq_refl) as Hne.
    assert (Hdone : ∀ db, db !! id = Some t →
              (mkSystem db (_job_queue sys) None).(store) !! id = Some t ∧
              settled (mkSystem db (_job_queue sys) None) id).
    { intros db Hdb. split; [done|]. by split. }
    destruct outcome as [err|payload]; simpl in Hstep.
    + destruct ok'; simpl in Hstep; injection Hstep as <-; apply Hdone;
        [by rewrite lookup_insert_ne|done].
    + destruct ok; simpl in Hstep.
      { injection Hstep as <-. apply Hdone. by rewrite lookup_insert_ne. }
      destruct ok'; simpl in Hstep; injection Hstep as <-; apply Hdone;
        [by rewrite lookup_insert_ne|done].
Qed.

Lemma run_settled es : ∀ sys sys' id t,
  wf sys → run sys es = Some sys' →
  store sys !! id = Some t → settled sys id →
  store sys' !! id = Some t ∧ settled sys' id.
Proof.
  induction es as [|e es IH]; simpl; intros sys sys' id t Hwf.
  - by intros [= <-].
  - destruct (step sys e) as [sys1|] eqn:Hstep; [|done]. intros Hrun Ht Hs.
    destruct (step_wf _ _ _ Hwf Hstep) as [Hwf1 _].
    destruct (step_settled _ _ _ _ _ Hwf Hstep Ht Hs) as [Ht1 Hs1].
    by apply (IH sys1).
Qed.

End TaskProperties.

(** C2 (as the code has it).  Along every run of submissions and worker
    steps, a task record sampled at two instants never shows a lower
    status at the later one under [queued < running < completed/failed],
    and a record that is terminal is found unchanged at every later
    instant.  The worker takes the head of the queue from [queued] to
    [running], and the task it is generating from [running] to
    [completed] when the pipeline returns and to [failed] when it raises
    or when the completed record cannot be saved, as long as the store
    accepts the save.  A refused save leaves the record at the status it
    had, [queued] or [running]; the id has left the queue and the worker
    no longer holds the task, and a record in that position is never
    written again. *)
Theorem task_status_monotone :
  ∀ (es es' : list Tasks.event) (sys sys' : Tasks.system),
    Tasks.run Tasks.init es = Some sys →
    Tasks.run sys es' = Some sys' →
    (∀ id t, Tasks.store sys !! id = Some t →
       ∃ t', Tasks.store sys' !! id = Some t' ∧
             (Tasks.rank (Tasks.status t) ≤ Tasks.rank (Tasks.status t'))%nat ∧
             (Tasks.terminal (Tasks.status t) = true → t' = t)) ∧
    (∀ id rest now save_ok,
       Tasks.in_flight sys = None → Tasks._job_queue sys = id :: rest →
       Tasks.status_of sys id = Some Tasks.queued ∧
       ∃ sys1, Tasks.worker_dequeue sys now save_ok = Some sys1 ∧
               Tasks._job_queue sys1 = rest ∧
               if save_ok
               then Tasks.status_of sys1 id = Some Tasks.running ∧
                    ∃ t1, Tasks.in_flight sys1 = Some t1 ∧ Tasks.task_id t1 = id
               else Tasks.status_of sys1 id = Some Tasks.queued ∧
                    settled sys1 id) ∧
    (∀ t outcome now save_ok save_ok',
       Tasks.in_flight sys = Some t →
       Tasks.status_of sys (Tasks.task_id t) = Some Tasks.running ∧
       ∃ sys1, Tasks.worker_finish sys outcome now save_ok save_ok' = Some sys1 ∧
               settled sys1 (Tasks.task_id t) ∧
               Tasks.status_of sys1 (Tasks.task_id t) =
                 Some (match outcome, save_ok, save_ok' with
                       | inr _, true, _ => Tasks.completed
                       | inr _, false, true | inl _, _, true => Tasks.failed
                       | _, _, false => Tasks.running
                       end)) ∧
    (∀ id t, Tasks.store sys !! id = Some t → settled sys id →
       Tasks.store sys' !! id = Some t).
Proof.
  intros es es' sys sys' Hrun Hrun'.
  destruct (run_wf es _ _ wf_init Hrun) as [Hwf _].
  destruct (run_wf es' _ _ Hwf Hrun') as [_ Hadv].
  split; [exact Hadv|].
  split; [|split];
    [| |intros id t Ht Hs; by apply (run_settled es' sys sys' id t Hwf Hrun')].
  - destruct Hwf as [Hk Hn Hq Hf]. intros id rest now ok Hfl Hqueue.
    destruct (Hq id) as (t & Ht & Hst); [rewrite Hqueue; by left|].
    assert (Hrest : id ∉ rest).
    { rewrite Hqueue in Hn. by apply NoDup_cons in Hn as [? _]. }
    unfold Tasks.status_of, Tasks.worker_dequeue.
    rewrite Hfl, Hqueue, Ht; simpl. rewrite Hst. split; [done|].
    destruct ok; simpl.
    + eexists. split; [done|]. simpl.
      rewrite (Hk id t Ht), lookup_insert_eq. simpl.
      split; [done|]. split; [done|]. eexists. split; [done|]. simpl.
      by apply Hk.
    + eexists. split; [done|]. simpl. rewrite Ht. simpl. rewrite Hst.
      split; [done|]. split; [done|]. by split.
  - destruct Hwf as [Hk Hn Hq Hf]. intros t outcome now ok ok' Hfl.
    destruct (Hf t Hfl) as (Ht & Hst & Hni).
    unfold Tasks.status_of, Tasks.worker_finish. rewrite Hfl, Ht; simpl.
    rewrite Hst. split; [done|].
    destruct outcome as [err|payload]; [|destruct ok]; try destruct ok'; simpl.
    all: eexists; split; [done|]; split; [by split|]; simpl.
    all: rewrite ?lookup_insert_eq, ?Ht; simpl; by rewrite ?Hst.
Qed.

Lemma task_status_monotone_witness :
  ∃ sys sys',
    Tasks.run Tasks.init
      [Tasks.Submit "t1" "{}" 0; Tasks.WorkerDequeue 1 true] = Some sys ∧
    Tasks.run sys [Tasks.WorkerFinish (inr "{files: 3}") 2 true true] = Some sys' ∧
    ∀ id t, Tasks.store sys !! id = Some t →
       ∃ t', Tasks.store sys' !! id = Some t' ∧
             (Tasks.rank (Tasks.status t) ≤ Tasks.rank (Tasks.status t'))%nat ∧
             (Tasks.terminal (Tasks.status t) = true → t' = t).
Proof.
  eexists _, _. split; [vm_compute; reflexivity|].
  split; [vm_compute; reflexivity|].
  apply (task_status_monotone
           [Tasks.Submit "t1" "{}" 0; Tasks.WorkerDequeue 1 true]
           [Tasks.WorkerFinish (inr "{files: 3}") 2 true true]);
    vm_compute; reflexivity.
Defined.

(** C2, counterexample.  The store refuses the save of [mark_running] for
    the task "t1": the worker has popped the id, the record stays
    [queued], and later worker steps find an empty queue and leave it so.
    For the task "t2" the store refuses both saves after the pipeline has
    returned: the record stays [running] and is not taken up again.
    Neither task reaches a terminal status. *)
Lemma refused_save_strands_the_task :
  (∃ sys,
     Tasks.run Tasks.init
       [Tasks.Submit "t1" "{}" 0; Tasks.WorkerDequeue 1 false;
        Tasks.WorkerDequeue 2 true; Tasks.WorkerDequeue 3 true] = Some sys ∧
     Tasks.status_of sys "t1" = Some Tasks.queued ∧
     Tasks._job_queue sys = [] ∧ Tasks.in_flight sys = None) ∧
  (∃ sys,
     Tasks.run Tasks.init
       [Tasks.Submit "t2" "{}" 0; Tasks.WorkerDequeue 1 true;
        Tasks.WorkerFinish (inr "{files: 3}") 2 false false;
        Tasks.WorkerDequeue 3 true] = Some sys ∧
     Tasks.status_of sys "t2" = Some Tasks.running ∧
     Tasks._job_queue sys = [] ∧ Tasks.in_flight sys = None).
Proof.
  split; (eexists; split; [vm_compute; reflexivity|]);
    repeat split; vm_compute; reflexivity.
Qed.

(* --------------------------------------------------------------------- *)
(** ** Polling fallback of the status stream *)
(* --------------------------------------------------------------------- *)

Section StreamProperties.
Import Tasks Stream.

(** One poll that finds the task in a non-terminal status. *)
Lemma poll_loop_non_terminal tid last t rest :
  terminal (status t) = false →
  poll_loop tid last (Some t :: rest) =
    (if bool_decide (Some (status t) = last) then []
     else [send_json (payload_of t)]) ++
    poll_loop tid (Some (status t)) rest.
Proof.
  intros Hnt; simpl. rewrite Hnt.
  destruct (bool_decide_reflect (Some (status t) = last)) as [<-|Hne]; done.
Qed.

(** The poll that first finds a terminal status. *)
Lemma poll_loop_terminal tid last t rest :
  terminal (status t) = true →
  (∀ s, last = Some s → terminal s = false) →
  poll_loop tid last (Some t :: rest) =
    [send_json (payload_of t); send_json (payload_of t); close].
Proof.
  intros Ht Hlast; simpl. rewrite Ht.
  destruct (bool_decide_reflect (Some (status t) = last)) as [<-|Hne]; [|done].
  specialize (Hlast _ eq_refl). congruence.
Qed.

Lemma poll_loop_until_terminal tid pre : ∀ last t rest,
  Forall non_terminal_poll pre →
  terminal (status t) = true →
  (∀ s, last = Some s → terminal s = false) →
  ∃ out, poll_loop tid last (pre ++ Some t :: rest) =
           out ++ [send_json (payload_of t); send_json (payload_of t); close] ∧
         Forall quiet out.
Proof.
  induction pre as [|o pre IH]; intros last t rest Hpre Ht Hlast.
  - exists []. split; [|constructor]. by apply poll_loop_terminal.
  - apply Forall_cons in Hpre as [Ho Hpre]. destruct o as [t0|].
    + specialize (Ho t0 eq_refl).
      destruct (IH (Some (status t0)) t rest Hpre Ht) as (out & Hout & Hq).
      { by intros s [= <-]. }
      change ((Some t0 :: pre) ++ Some t :: rest)
        with (Some t0 :: (pre ++ Some t :: rest)).
      rewrite poll_loop_non_terminal by done. rewrite Hout.
      eexists. rewrite app_assoc. split; [done|].
      apply Forall_app. split; [|done].
      destruct (bool_decide _); constructor; [|constructor].
      split; [|done]. simpl. done.
    + destruct (IH last t rest Hpre Ht Hlast) as (out & Hout & Hq).
      exists (send_json (task_not_found tid) :: out). simpl. rewrite Hout.
      split; [done|]. constructor; [|done]. by split.
Qed.

End StreamProperties.

(** The fallback on any sequence of polls.  A poll that finds the task in
    a non-terminal status sends a message exactly when that status differs
    from the last one sent, and a poll that finds no task sends a
    [task_not_found] message every time.  The first poll that finds a
    terminal status sends the terminal payload twice, once as the status
    change and once as the final message, then closes; nothing sent before
    carries a terminal status, and nothing is sent after the close. *)
Lemma fallback_stream_sends_terminal_twice :
  ∀ (tid : string) (pre : list (option Tasks.GenerationTask))
    (t : Tasks.GenerationTask) (rest : list (option Tasks.GenerationTask)),
    Forall non_terminal_poll pre →
    Tasks.terminal (Tasks.status t) = true →
    (∃ out,
       Stream.task_progress_ws_fallback tid (pre ++ Some t :: rest) =
         out ++ [Stream.send_json (Stream.payload_of t);
                 Stream.send_json (Stream.payload_of t); Stream.close] ∧
       Forall quiet out) ∧
    (∀ last t0 more,
       Tasks.terminal (Tasks.status t0) = false →
       Stream.poll_loop tid last (Some t0 :: more) =
         (if bool_decide (Some (Tasks.status t0) = last) then []
          else [Stream.send_json (Stream.payload_of t0)]) ++
         Stream.poll_loop tid (Some (Tasks.status t0)) more) ∧
    (∀ last more,
       Stream.poll_loop tid last (None :: more) =
         Stream.send_json (Stream.task_not_found tid) ::
         Stream.poll_loop tid last more).
Proof.
  intros tid pre t rest Hpre Ht. split; [|split].
  - apply poll_loop_until_terminal; [done|done|]. intros s Hs. discriminate.
  - intros last t0 more Hnt. by apply poll_loop_non_terminal.
  - done.
Qed.

(** C6 (defect).  The task is polled as queued, running, completed: the
    stream sends the completed payload twice before closing, the second
    time although the status equals the one just sent, so the terminal
    messages are two and not one. *)
Theorem fallback_stream_terminal_not_once :
  Stream.task_progress_ws_fallback "T"
    [Some (stream_task Tasks.queued); Some (stream_task Tasks.running);
     Some (stream_task Tasks.completed)] =
    [Stream.send_json (Stream.payload_of (stream_task Tasks.queued));
     Stream.send_json (Stream.payload_of (stream_task Tasks.running));
     Stream.send_json (Stream.payload_of (stream_task Tasks.completed));
     Stream.send_json (Stream.payload_of (stream_task Tasks.completed));
     Stream.close] ∧
  length (List.filter Stream.is_terminal_message
            (Stream.task_progress_ws_fallback "T"
               [Some (stream_task Tasks.queued); Some (stream_task Tasks.running);
                Some (stream_task Tasks.completed)])) ≠ 1%nat.
Proof. split; [reflexivity|]. vm_compute. discriminate. Qed.

(* --------------------------------------------------------------------- *)
(** ** Session roster *)
(* --------------------------------------------------------------------- *)

Section RosterProperties.
Import Roster Roster.CollaborationSession.

Lemma reactivate_ids uid now ps ps' :
  reactivate uid now ps = Some ps' →
  map SessionParticipant.user_id ps' = map SessionParticipant.user_id ps.
Proof.
  revert ps'. induction ps as [|p ps IH]; simpl; intros ps'; [done|].
  destruct (String.eqb_spec (SessionParticipant.user_id p) uid) as [Heq|Hne].
  - by intros [= <-].
  - destruct (reactivate uid now ps) as [qs|]; simpl; [|done].
    intros [= <-]. simpl. f_equal. by apply IH.
Qed.

Lemma reactivate_length uid now ps ps' :
  reactivate uid now ps = Some ps' → length ps' = length ps.
Proof.
  intros H. apply reactivate_ids in H.
  apply (f_equal (@length _)) in H. by rewrite !length_map in H.
Qed.

Lemma reactivate_None uid now ps :
  reactivate uid now ps = None ↔ uid ∉ map SessionParticipant.user_id ps.
Proof.
  induction ps as [|p ps IH]; simpl.
  - split; [intros _; apply not_elem_of_nil|done].
  - rewrite not_elem_of_cons.
    destruct (String.eqb_spec (SessionParticipant.user_id p) uid) as [Heq|Hne].
    + split; [done|]. intros [Hn _]. by destruct Hn.
    + destruct (reactivate uid now ps) as [qs|]; simpl.
      * split; [done|]. intros [_ Hn]. by apply IH in Hn.
      * split; [|done]. intros _. split; [done|]. by apply IH.
Qed.

(** The entry that [reactivate] returns for the user: active, refreshed. *)
Lemma reactivate_entry uid now ps ps' :
  reactivate uid now ps = Some ps' →
  ∃ p, p ∈ ps' ∧ SessionParticipant.user_id p = uid ∧
       SessionParticipant.is_active p = true ∧
       SessionParticipant.last_activity p = now.
Proof.
  revert ps'. induction ps as [|p ps IH]; simpl; intros ps'; [done|].
  destruct (String.eqb_spec (SessionParticipant.user_id p) uid) as [Heq|Hne].
  - intros [= <-]. eexists. split; [by left|]. done.
  - destruct (reactivate uid now ps) as [qs|]; simpl; [|done].
    intros [= <-]. destruct (IH qs eq_refl) as (q & Hq & Hrest).
    exists q. split; [by right|done].
Qed.

Lemma add_participant_at_capacity s uid username role now :
  max_participants s ≤ Z.of_nat (length (participants s)) →
  add_participant s uid username role now = raise capacity_error.
Proof.
  intros Hfull. unfold add_participant.
  destruct (Z.geb_spec (Z.of_nat (length (participants s))) (max_participants s));
    [done|lia].
Qed.

Lemma active_le_all s :
  (length (get_active_participants s) ≤ length (participants s))%nat.
Proof. apply List.filter_length_le. Qed.

Lemma apply_call_max s c : max_participants (apply_call s c) = max_participants s.
Proof.
  destruct c as [uid username role now|uid now]; simpl; [|done].
  unfold add_participant.
  destruct (_ >=? _); simpl; [done|].
  destruct (reactivate uid now (participants s)); done.
Qed.

Lemma apply_call_bounded s c :
  Z.of_nat (length (participants s)) ≤ max_participants s →
  Z.of_nat (length (participants (apply_call s c))) ≤ max_participants s.
Proof.
  intros Hle. destruct c as [uid username role now|uid now]; simpl.
  - unfold add_participant.
    destruct (Z.geb_spec (Z.of_nat (length (participants s))) (max_participants s));
      simpl; [done|].
    destruct (reactivate uid now (participants s)) as [ps|] eqn:Hre; simpl.
    + apply reactivate_length in Hre. lia.
    + rewrite length_app; simpl. lia.
  - pose proof (List.filter_length_le
      (fun p => negb (String.eqb (SessionParticipant.user_id p) uid))
      (participants s)). lia.
Qed.

Lemma apply_calls_bounded cs : ∀ s,
  Z.of_nat (length (participants s)) ≤ max_participants s →
  Z.of_nat (length (participants (apply_calls s cs))) ≤
    max_participants (apply_calls s cs).
Proof.
  unfold apply_calls. induction cs as [|c cs IH]; simpl; intros s Hle; [done|].
  apply IH. rewrite apply_call_max. by apply apply_call_bounded.
Qed.

Lemma filter_ids_NoDup (f : Participant → bool) ps :
  NoDup (map SessionParticipant.user_id ps) →
  NoDup (map SessionParticipant.user_id (List.filter f ps)).
Proof.
  induction ps as [|p ps IH]; simpl; [done|].
  intros Hnd. apply NoDup_cons in Hnd as [Hp Hnd].
  destruct (f p); simpl; [|by apply IH].
  apply NoDup_cons. split; [|by apply IH].
  intros Hin. apply Hp.
  apply list_elem_of_fmap in Hin as (q & Hq & Hin).
  apply list_elem_of_In, List.filter_In in Hin as [Hin _].
  apply list_elem_of_fmap. exists q. split; [done|]. by apply list_elem_of_In.
Qed.

Lemma apply_call_NoDup s c : NoDup (ids s) → NoDup (ids (apply_call s c)).
Proof.
  unfold ids. intros Hnd. destruct c as [uid username role now|uid now]; simpl.
  - unfold add_participant. destruct (_ >=? _); simpl; [done|].
    destruct (reactivate uid now (participants s)) as [ps|] eqn:Hre; simpl.
    + by rewrite (reactivate_ids _ _ _ _ Hre).
    + rewrite map_app; simpl. apply NoDup_app. split; [done|]. split.
      * intros x Hx Hx'. apply list_elem_of_singleton in Hx' as ->.
        by apply reactivate_None in Hre.
      * apply NoDup_singleton.
  - by apply filter_ids_NoDup.
Qed.

Lemma apply_calls_NoDup cs : ∀ s, NoDup (ids s) → NoDup (ids (apply_calls s cs)).
Proof.
  unfold apply_calls. induction cs as [|c cs IH]; simpl; intros s Hnd; [done|].
  by apply IH, apply_call_NoDup.
Qed.

(** Among entries with pairwise different user ids at most one has a given
    id. *)
Lemma entries_of_user_le_1 uid ps :
  NoDup (map SessionParticipant.user_id ps) →
  (length (List.filter
             (fun p => String.eqb (SessionParticipant.user_id p) uid) ps) ≤ 1)%nat.
Proof.
  induction ps as [|p ps IH]; simpl; [lia|].
  intros Hnd. apply NoDup_cons in Hnd as [Hp Hnd].
  destruct (String.eqb_spec (SessionParticipant.user_id p) uid) as [Heq|Hne];
    [|by apply IH].
  simpl. rewrite (proj2 (List.length_zero_iff_nil _)); [lia|].
  destruct (List.filter _ ps) as [|q qs] eqn:Hf; [done|]. exfalso. apply Hp.
  assert (Hq : List.In q (List.filter
     (fun p => String.eqb (SessionParticipant.user_id p) uid) ps))
    by (rewrite Hf; by left).
  apply List.filter_In in Hq as [Hin Hq]. apply String.eqb_eq in Hq.
  apply list_elem_of_fmap. exists q. split; [congruence|by apply list_elem_of_In].
Qed.

Lemma active_entries_le_1 s uid :
  NoDup (ids s) → (length (active_entries s uid) ≤ 1)%nat.
Proof.
  intros Hnd. unfold active_entries, get_active_participants.
  apply entries_of_user_le_1. by apply filter_ids_NoDup.
Qed.

End RosterProperties.

(** C3. Starting from a session whose participant list fits its capacity
    (a new session has none), after any sequence of [add_participant] and
    [remove_participant] calls the number of active participants is at most
    [max_participants]; and whenever the active participants have reached
    [max_participants], [add_participant] raises the capacity error. *)
Theorem active_participants_within_capacity :
  ∀ (s : Roster.CollaborationSession.t) (cs : list Roster.call),
    Z.of_nat (length (Roster.CollaborationSession.participants s)) ≤
      Roster.CollaborationSession.max_participants s →
    Z.of_nat (length (Roster.get_active_participants (Roster.apply_calls s cs))) ≤
      Roster.CollaborationSession.max_participants (Roster.apply_calls s cs) ∧
    (∀ s' uid username role now,
       Roster.CollaborationSession.max_participants s' ≤
         Z.of_nat (length (Roster.get_active_participants s')) →
       Roster.add_participant s' uid username role now =
         raise Roster.capacity_error).
Proof.
  intros s cs Hle. split.
  - pose proof (apply_calls_bounded cs s Hle).
    pose proof (active_le_all (Roster.apply_calls s cs)). lia.
  - intros s' uid username role now Hfull.
    apply add_participant_at_capacity.
    pose proof (active_le_all s'). lia.
Qed.

Lemma active_participants_within_capacity_witness :
  Z.of_nat (length (Roster.CollaborationSession.participants (standup 2))) ≤
    Roster.CollaborationSession.max_participants (standup 2) ∧
  Z.of_nat (length (Roster.get_active_participants
     (Roster.apply_calls (standup 2)
        [Roster.Add "A" "a" Roster.ADMIN 1; Roster.Add "B" "b" Roster.EDITOR 2;
         Roster.Add "C" "c" Roster.EDITOR 3]))) ≤ 2.
Proof.
  assert (H : Z.of_nat (length (Roster.CollaborationSession.participants (standup 2))) ≤
            Roster.CollaborationSession.max_participants (standup 2))
    by (simpl; lia).
  split; [exact H|].
  exact (proj1 (active_participants_within_capacity (standup 2)
    [Roster.Add "A" "a" Roster.ADMIN 1; Roster.Add "B" "b" Roster.EDITOR 2;
     Roster.Add "C" "c" Roster.EDITOR 3] H)).
Defined.

(** C4 (as the code has it).  Starting from a session whose entries have
    pairwise different user ids (a new session has none), after any
    sequence of [add_participant] and [remove_participant] calls a user id
    has at most one active entry.  [add_participant] for a user id already
    present never appends: while the list is shorter than
    [max_participants] it sets the existing entry active and refreshes its
    last activity; once the list has reached [max_participants] it raises
    the capacity error instead. *)
Theorem one_active_entry_per_user :
  ∀ (s : Roster.CollaborationSession.t),
    NoDup (ids s) →
    (∀ cs uid, (length (Roster.active_entries (Roster.apply_calls s cs) uid) ≤ 1)%nat) ∧
    (∀ uid username role now,
       uid ∈ ids s →
       (Z.of_nat (length (Roster.CollaborationSession.participants s)) <
          Roster.CollaborationSession.max_participants s →
        ∃ s', Roster.add_participant s uid username role now = ret s' ∧
              ids s' = ids s ∧
              ∃ p, p ∈ Roster.CollaborationSession.participants s' ∧
                   Roster.SessionParticipant.user_id p = uid ∧
                   Roster.SessionParticipant.is_active p = true ∧
                   Roster.SessionParticipant.last_activity p = now) ∧
       (Roster.CollaborationSession.max_participants s ≤
          Z.of_nat (length (Roster.CollaborationSession.participants s)) →
        Roster.add_participant s uid username role now =
          raise Roster.capacity_error)).
Proof.
  intros s Hnd. split.
  - intros cs uid. by apply active_entries_le_1, apply_calls_NoDup.
  - intros uid username role now Hin. split.
    + intros Hroom. unfold Roster.add_participant.
      destruct (Z.geb_spec
        (Z.of_nat (length (Roster.CollaborationSession.participants s)))
        (Roster.CollaborationSession.max_participants s)); [lia|].
      destruct (Roster.reactivate uid now (Roster.CollaborationSession.participants s))
        as [ps|] eqn:Hre.
      * eexists. split; [done|]. split.
        { unfold ids; simpl. by apply reactivate_ids in Hre. }
        simpl. by apply reactivate_entry in Hre.
      * apply reactivate_None in Hre. done.
    + apply add_participant_at_capacity.
Qed.

Lemma one_active_entry_per_user_witness :
  NoDup (ids (standup 2)) ∧
  (length (Roster.active_entries
     (Roster.apply_calls (standup 2)
        [Roster.Add "A" "a" Roster.ADMIN 1; Roster.Remove "A" 2;
         Roster.Add "A" "a" Roster.EDITOR 3; Roster.Add "A" "a" Roster.EDITOR 4])
     "A") ≤ 1)%nat.
Proof.
  assert (H : NoDup (ids (standup 2))) by constructor.
  split; [exact H|].
  exact (proj1 (one_active_entry_per_user (standup 2) H) _ "A").
Defined.

(** C4, counterexample.  In a session with room for one, user A joins and
    then calls [add_participant] again: the second call is rejected with
    the capacity error, and A's entry keeps the last activity of the first
    call instead of being refreshed. *)
Lemma rejoin_at_capacity_is_rejected :
  let s := Roster.apply_calls (standup 1) [Roster.Add "A" "a" Roster.ADMIN 1] in
  "A" ∈ ids s ∧
  Roster.add_participant s "A" "a" Roster.EDITOR 7 = raise Roster.capacity_error ∧
  map Roster.SessionParticipant.last_activity
      (Roster.CollaborationSession.participants
         (Roster.apply_call s (Roster.Add "A" "a" Roster.EDITOR 7))) = [1].
Proof.
  simpl. split; [|split]; [|reflexivity|reflexivity].
  unfold ids; simpl. by left.
Qed.

(* --------------------------------------------------------------------- *)
(** ** Connection registry *)
(* --------------------------------------------------------------------- *)

Section RegistryProperties.
Import Registry.

Lemma bind_ret_inv {A B} (m : M A) (k : A → M B) (b : B) :
  (a ← m; k a) = ret b → ∃ a, m = ret a ∧ k a = ret b.
Proof.
  unfold mbind, M_bind, bindM. destruct m as [e|a]; [done|]. eauto.
Qed.

Lemma bind_ret_l {A B} (a : A) (k : A → M B) : (x ← ret a; k x) = k a.
Proof. done. Qed.

Lemma getitem_Some `{Countable K} {V} (d : gmap K V) k v :
  d !! k = Some v → getitem d k = ret v.
Proof. intros Hd. unfold getitem. by rewrite Hd. Qed.


Lemma inbox_insert_eq w b a x :
  inbox (with_net w (mkNetwork b (<[a := x]> (received (net w))))) a = x.
Proof. unfold inbox; simpl. by rewrite lookup_insert_eq. Qed.

Lemma inbox_insert_ne w b a c x :
  c ≠ a →
  inbox (with_net w (mkNetwork b (<[a := x]> (received (net w))))) c = inbox w c.
Proof. intros H. unfold inbox; simpl. by rewrite lookup_insert_ne. Qed.

(** A successful send appends to the receiver's inbox only. *)
Lemma send_text_inv n ws msg n' :
  send_text n ws msg = ret n' →
  (ws ∉ broken n) ∧ broken n' = broken n ∧
  received n' = <[ws := default [] (received n !! ws) ++ [msg]]> (received n).
Proof.
  unfold send_text. case_bool_decide; [done|]. by intros [= <-].
Qed.

Lemma send_text_broken n ws msg :
  ws ∈ broken n → send_text n ws msg = raise ConnectionError.
Proof. intros H. unfold send_text. by rewrite bool_decide_eq_true_2. Qed.

Lemma send_text_healthy n ws msg :
  ws ∉ broken n →
  send_text n ws msg =
    ret (mkNetwork (broken n)
           (<[ws := default [] (received n !! ws) ++ [msg]]> (received n))).
Proof. intros H. unfold send_text. by rewrite bool_decide_eq_false_2. Qed.



Section Broadcast.
Variables (sid : string) (msg : message) (ex : option WebSocket).

Lemma broadcast_one_round w c conns :
  active_connections (manager w) !! sid = Some conns →
  ∃ w', broadcast_one sid msg ex w c = ret w' ∧ round sid msg ex w c w'.
Proof.
  intros Hac. unfold broadcast_one. case_bool_decide as Hex.
  { exists w. split; [done|]. by apply round_skip. }
  destruct (decide (c ∈ broken (net w))) as [Hb|Hb].
  - rewrite send_text_broken by done. unfold raise, getitem. rewrite Hac.
    eexists. split; [reflexivity|].
    eapply round_failed; [done|done|done|].
    destruct (user_connections (manager w) !! c) eqn:Huc; [done|].
    by rewrite delete_id.
  - rewrite send_text_healthy by done.
    eexists. split; [reflexivity|]. by apply round_sent.
Qed.

Lemma broadcast_post_nil w : broadcast_post sid msg ex [] w w.
Proof.
  split.
  - done.
  - done.
  - done.
  - done.
  - done.
  - intros conns Hc. exists conns. split; [done|]. intros c.
    split; [|by intros [? _]]. intros Hin. split; [done|].
    intros [Hnil _]. by apply not_elem_of_nil in Hnil.
  - intros c. case_decide as H; [|done]. destruct H as [H _].
    by apply not_elem_of_nil in H.
  - intros c. case_decide as H; [|done]. destruct H as [H _].
    by apply not_elem_of_nil in H.
Qed.

(** Extending the loop by a connection that is skipped or served leaves
    the set of failed connections of the remainder as it is. *)
Lemma decide_cons_other {A} (P Q : WebSocket → Prop) (a c : WebSocket)
    (l : list WebSocket) (x y : A)
    `{!Decision (c ∈ a :: l ∧ P c ∧ Q c)} `{!Decision (c ∈ l ∧ P c ∧ Q c)} :
  ¬ (P a ∧ Q a) →
  (if decide (c ∈ a :: l ∧ P c ∧ Q c) then x else y) =
  (if decide (c ∈ l ∧ P c ∧ Q c) then x else y).
Proof.
  intros Hna. repeat case_decide; try done.
  - exfalso. destruct H as (H3 & H4 & H5).
    apply elem_of_cons in H3 as [->|H3]; [by apply Hna|]. by apply H0.
  - exfalso. destruct H0 as (H3 & H4 & H5). apply H. split; [by right|done].
Qed.

Lemma decide_cons_other_ne {A} (P Q : WebSocket → Prop) (a c : WebSocket)
    (l : list WebSocket) (x y : A)
    `{!Decision (c ∈ a :: l ∧ P c ∧ Q c)} `{!Decision (c ∈ l ∧ P c ∧ Q c)} :
  c ≠ a →
  (if decide (c ∈ a :: l ∧ P c ∧ Q c) then x else y) =
  (if decide (c ∈ l ∧ P c ∧ Q c) then x else y).
Proof.
  intros Hna. repeat case_decide; try done.
  - exfalso. destruct H as (H3 & H4 & H5).
    apply elem_of_cons in H3 as [->|H3]; [done|]. by apply H0.
  - exfalso. destruct H0 as (H3 & H4 & H5). apply H. split; [by right|done].
Qed.

Lemma broadcast_post_cons a l w w1 w' :
  a ∉ l → round sid msg ex w a w1 → broadcast_post sid msg ex l w1 w' →
  broadcast_post sid msg ex (a :: l) w w'.
Proof.
  intros Ha Hround [Hdb Hbr Hse Hui Hot Hco Hin Huc].
  destruct Hround as [Hex ->|Hex Hb ->|conns0 Hex Hb Hac0 ->]; simpl in *.
  - (* skipped *)
    split.
    + done.
    + done.
    + done.
    + done.
    + done.
    + intros conns Hc. destruct (Hco conns Hc) as (conns' & Hc' & Hiff).
      exists conns'. split; [done|]. intros c. rewrite Hiff.
      split; intros [H1 H2]; (split; [done|]); intros (H3 & H4 & H5); apply H2.
      * apply elem_of_cons in H3 as [->|H3]; [done|]. done.
      * split; [by right|done].
    + intros c. rewrite Hin.
      symmetry. apply (decide_cons_other (λ c, c ∉ broken (net w)) (λ c, ex ≠ Some c)).
      by intros [_ ?].
    + intros c. rewrite Huc.
      symmetry. apply (decide_cons_other (λ c, c ∈ broken (net w)) (λ c, ex ≠ Some c)).
      by intros [_ ?].
  - (* delivered *)
    split.
    + done.
    + done.
    + done.
    + done.
    + done.
    + intros conns Hc. destruct (Hco conns Hc) as (conns' & Hc' & Hiff).
      exists conns'. split; [done|]. intros c. rewrite Hiff.
      split; intros [H1 H2]; (split; [done|]); intros (H3 & H4 & H5); apply H2.
      * apply elem_of_cons in H3 as [->|H3]; [done|]. done.
      * split; [by right|done].
    + intros c. rewrite Hin.
      destruct (decide (c = a)) as [->|Hne].
      * rewrite inbox_insert_eq.
        rewrite decide_False by (by intros [? _]).
        rewrite decide_True; [done|]. split; [by left|done].
      * rewrite inbox_insert_ne by done.
        symmetry.
        by apply (decide_cons_other_ne (λ c, c ∉ broken (net w)) (λ c, ex ≠ Some c)).
    + intros c. rewrite Huc.
      symmetry. apply (decide_cons_other (λ c, c ∈ broken (net w)) (λ c, ex ≠ Some c)).
      by intros [? _].
  - (* failed *)
    split.
    + done.
    + done.
    + done.
    + done.
    + intros sid' Hne. rewrite Hot by done. by rewrite lookup_insert_ne.
    + intros conns Hc. rewrite Hac0 in Hc. injection Hc as <-.
      destruct (Hco (conns0 ∖ {[a]})) as (conns' & Hc' & Hiff).
      { by rewrite lookup_insert_eq. }
      exists conns'. split; [done|]. intros c. rewrite Hiff.
      rewrite elem_of_difference, elem_of_singleton.
      split.
      * intros [[H1 H1'] H2]. split; [done|]. intros (H3 & H4 & H5).
        apply elem_of_cons in H3 as [->|H3]; [done|]. by apply H2.
      * intros [H1 H2]. split; [split; [done|]|].
        -- intros ->. apply H2. split; [by left|done].
        -- intros (H3 & H4 & H5). apply H2. split; [by right|done].
    + intros c. rewrite Hin. unfold inbox; simpl.
      symmetry. apply (decide_cons_other (λ c, c ∉ broken (net w)) (λ c, ex ≠ Some c)).
      by intros [? _].
    + intros c. rewrite Huc. destruct (decide (c = a)) as [->|Hne].
      * rewrite decide_False by (by intros [? _]).
        rewrite decide_True by (split; [by left|done]).
        by rewrite lookup_delete_eq.
      * rewrite lookup_delete_ne by done.
        symmetry.
        by apply (decide_cons_other_ne (λ c, c ∈ broken (net w)) (λ c, ex ≠ Some c)).
Qed.

Lemma round_keeps_session w c w1 conns :
  active_connections (manager w) !! sid = Some conns → round sid msg ex w c w1 →
  is_Some (active_connections (manager w1) !! sid).
Proof.
  intros Hac [Hex ->|Hex Hb ->|conns0 Hex Hb Hac0 ->]; simpl; [by eexists..|].
  rewrite lookup_insert_eq. by eexists.
Qed.

(** The loop never raises, whatever the sockets do. *)
Lemma for_each_broadcast l : ∀ w conns,
  NoDup l → active_connections (manager w) !! sid = Some conns →
  ∃ w', for_each (broadcast_one sid msg ex) l w = ret w' ∧
        broadcast_post sid msg ex l w w'.
Proof.
  induction l as [|a l IH]; intros w conns Hnd Hac; simpl.
  - exists w. split; [done|apply broadcast_post_nil].
  - apply NoDup_cons in Hnd as [Ha Hnd].
    destruct (broadcast_one_round w a conns Hac) as (w1 & Hone & Hround).
    destruct (round_keeps_session _ _ _ _ Hac Hround) as [conns1 Hac1].
    destruct (IH w1 conns1 Hnd Hac1) as (w' & Hrest & Hpost).
    exists w'. rewrite Hone. split; [exact Hrest|].
    by eapply broadcast_post_cons.
Qed.

Lemma broadcast_to_session_total w :
  ∃ w', broadcast_to_session w sid msg ex = ret w' ∧
    match active_connections (manager w) !! sid with
    | None => w' = w
    | Some conns => broadcast_post sid msg ex (elements conns) w w'
    end.
Proof.
  unfold broadcast_to_session.
  destruct (active_connections (manager w) !! sid) as [conns|] eqn:Hac.
  - apply (for_each_broadcast _ w conns); [apply NoDup_elements|done].
  - by exists w.
Qed.

End Broadcast.




Lemma persist_join_manager w sid uid ui now :
  manager (persist_join w sid uid ui now) = manager w ∧
  net (persist_join w sid uid ui now) = net w.
Proof.
  unfold persist_join. destruct (collab_sessions (db w) !! sid); [|done].
  by destruct (Roster.add_participant _ _ _ _ _).
Qed.



(** *** The manager stays well formed *)




Lemma send_personal_message_manager msg ws w :
  manager (send_personal_message msg ws w) = manager w.
Proof. unfold send_personal_message. by destruct (send_text _ _ _). Qed.



(** *** The coroutine and the sequential reading of [connect] agree *)

Lemma broadcast_async_alone sid msg ex conns k : ∀ w,
  run_k (broadcast_async sid msg ex conns k) w =
    (w' ← for_each (broadcast_one sid msg ex) conns w; run_k k w').
Proof.
  induction conns as [|c conns IH]; intros w; simpl.
  - done.
  - case_bool_decide as Hex.
    + rewrite IH. unfold broadcast_one. rewrite bool_decide_eq_true_2 by done.
      by rewrite bind_ret_l.
    + unfold run_k at 1.
      destruct (broadcast_one sid msg ex w c) as [e|w1]; [done|].
      rewrite !bind_ret_l. simpl. apply IH.
Qed.

Lemma broadcast_to_session_async_alone sid msg ex k w :
  run_k (broadcast_to_session_async sid msg ex k) w =
    (w' ← broadcast_to_session w sid msg ex; run_k k w').
Proof.
  unfold run_k at 1. unfold broadcast_to_session_async, broadcast_to_session.
  destruct (active_connections (manager w) !! sid) as [conns|].
  - exact (broadcast_async_alone sid msg ex (elements conns) k w).
  - by rewrite bind_ret_l.
Qed.


End RegistryProperties.

(* --------------------------------------------------------------------- *)
(** ** [connect] among other handlers *)
(* --------------------------------------------------------------------- *)

Section AmongOthers.
Import Registry.




Section Joining.
Variables (sid : string) (ws : WebSocket) (ui' : user_info) (uid : string)
          (meta : session_meta) (dead : bool)
          (doc : option Roster.CollaborationSession.t).




End Joining.





(** So does the disconnect of a connection of another session. *)
Lemma disconnect_elsewhere w ws' w0 ts sid ws sid' ui' :
  user_connections (manager w) !! ws' = Some (sid', ui') →
  sid' ≠ sid → ws' ≠ ws →
  disconnect w ws' = ret (w0, ts) →
  undisturbed sid ws w w0.
Proof.
  intros Huc Hne Hws. unfold disconnect. rewrite Huc. intros Hd.
  apply bind_ret_inv in Hd as ([m1 notify] & Hm1 & Hd).
  injection Hd as <- _.
  assert (Hkeep :
    active_connections m1 !! sid = active_connections (manager w) !! sid ∧
    sessions m1 !! sid = sessions (manager w) !! sid ∧
    user_connections m1 = user_connections (manager w) ∧
    user_id_connections m1 = user_id_connections (manager w)).
  { destruct (active_connections (manager w) !! sid') as [conns'|].
    - apply bind_ret_inv in Hm1 as (meta & _ & Hm1).
      case_bool_decide; injection Hm1 as <- _; cbn.
      + by rewrite !lookup_delete_ne.
      + by rewrite !lookup_insert_ne.
    - by injection Hm1 as <- _. }
  destruct Hkeep as (Hac & Hse & Huc1 & Hui1).
  split; cbn [manager with_manager net db active_connections sessions
              user_connections user_id_connections]; try done.
  - rewrite Huc1. by rewrite lookup_delete_ne.
  - intros uid socks Hus Hin. rewrite Hui1.
    destruct (truthy (user_id ui')); [|by exists socks].
    destruct (user_id_connections (manager w) !! default "" (user_id ui'))
      as [socks'|] eqn:Hus'; [|by exists socks].
    destruct (decide (default "" (user_id ui') = uid)) as [Heq|Hneq].
    + rewrite Heq in Hus'. rewrite Hus in Hus'. injection Hus' as <-.
      assert (Hin' : ws ∈ socks ∖ {[ws']}).
      { apply elem_of_difference. split; [done|].
        apply not_elem_of_singleton. congruence. }
      rewrite bool_decide_eq_false_2.
      * rewrite Heq, lookup_insert_eq. by eexists.
      * intros Hempty. rewrite Hempty in Hin'. by apply not_elem_of_empty in Hin'.
    + exists socks. split; [|done].
      case_bool_decide; by rewrite ?lookup_delete_ne, ?lookup_insert_ne.
Qed.

End AmongOthers.

(** Without that restraint [connect] can raise.  B joins on a socket
    whose client is gone already.  While [connect] is suspended in the
    send of [user_joined] to A, A's handler broadcasts a chat message, the
    send to B's socket fails and the socket is dropped from the session's
    connection set; then A disconnects, the set is empty and the session's
    entries are deleted.  When [connect] is resumed it reads
    [self.sessions[session_id]] for the snapshot and raises [KeyError]. *)
Lemma connect_raises_when_session_is_deleted :
  runs_among others_act
    (Registry.connect_async 2%nat "s" bob "uuid" 0 0)
    (break_socket one_joined 2%nat) (raise KeyError).
Proof.
  eapply runs_step; [apply others_nothing|vm_compute; reflexivity|].
  eapply runs_raise.
  - eapply (others_message _ 1%nat "chat_message" "hi" 5);
      [vm_compute; reflexivity|].
    eapply (others_disconnect _ 1%nat); [vm_compute; reflexivity|].
    apply others_nothing.
  - vm_compute. reflexivity.
Qed.


Lemma sessions_cover_dom (m : Registry.ConnectionManager) :
  dom (Registry.active_connections m) ⊆ dom (Registry.sessions m) →
  sessions_cover m.
Proof.
  intros Hsub sid Hac. apply elem_of_dom, Hsub, elem_of_dom, Hac.
Qed.

Lemma two_joined_cover : sessions_cover (Registry.manager two_joined).
Proof.
  apply sessions_cover_dom.
  apply (bool_decide_unpack _). vm_compute. exact I.
Defined.




Lemma one_joined_cover : sessions_cover (Registry.manager one_joined).
Proof.
  apply sessions_cover_dom.
  apply (bool_decide_unpack _). vm_compute. exact I.
Defined.





(** What a broadcast does in general: it returns, every connection of the
    session that is healthy and not excluded has the message appended to
    its inbox, every failing one leaves the session's connection set and
    the socket map, and the user-keyed map is returned as it was. *)
Lemma broadcast_isolates_failures (w : Registry.world) (sid : string)
    (msg : Registry.message) (ex : option Registry.WebSocket)
    (conns : gset Registry.WebSocket) :
  Registry.active_connections (Registry.manager w) !! sid = Some conns →
  ∃ w' conns',
    Registry.broadcast_to_session w sid msg ex = ret w' ∧
    Registry.active_connections (Registry.manager w') !! sid = Some conns' ∧
    Registry.user_id_connections (Registry.manager w') =
      Registry.user_id_connections (Registry.manager w) ∧
    ∀ c, c ∈ conns → ex ≠ Some c →
      if decide (c ∈ Registry.broken (Registry.net w))
      then (c ∉ conns') ∧ Registry.user_connections (Registry.manager w') !! c = None ∧
           Registry.inbox w' c = Registry.inbox w c
      else c ∈ conns' ∧ Registry.inbox w' c = Registry.inbox w c ++ [msg].
Proof.
  intros Hac.
  destruct (broadcast_to_session_total sid msg ex w) as (w' & Hb & Hpost).
  rewrite Hac in Hpost. destruct Hpost as [Hdb Hbr Hse Hu Hot Hco Hinb Huc].
  destruct (Hco conns Hac) as (conns' & Hac' & Hiff).
  exists w', conns'. split; [done|]. split; [done|]. split; [done|].
  intros c Hc Hex. assert (Hel : c ∈ elements conns) by by apply elem_of_elements.
  case_decide as Hbad.
  - split; [|split].
    + rewrite Hiff. intros [_ Hn]. by apply Hn.
    + rewrite Huc. by rewrite decide_True.
    + rewrite Hinb. rewrite decide_False; [done|]. by intros (_ & ? & _).
  - split.
    + apply Hiff. split; [done|]. by intros (_ & ? & _).
    + rewrite Hinb. by rewrite decide_True.
Qed.

(** C8 (defect).  A is on the dead socket 1 and B on the healthy socket 2.
    The broadcast returns and B receives the message; socket 1 leaves the
    session's connection set and the socket map, but it stays in the
    user-keyed map under A, and A stays in the in-memory roster.  The
    [disconnect] that follows for socket 1 finds it gone from the socket
    map and does nothing, so both leftovers remain. *)
Theorem failed_send_leaves_user_map_entry :
  let w := break_socket two_joined 1%nat in
  let msg := Registry.client_message "chat_message" "hi" bob 5 in
  ∃ w', Registry.broadcast_to_session w "s" msg None = ret w' ∧
    Registry.inbox w' 2%nat = Registry.inbox w 2%nat ++ [msg] ∧
    live_sockets w' = Some [2%nat] ∧
    Registry.user_connections (Registry.manager w') !! 1%nat = None ∧
    sockets_of w' "A" = Some [1%nat] ∧
    live_roster w' = Some [alice; bob] ∧
    Registry.disconnect w' 1%nat = ret (w', []).
Proof.
  eexists. split; [vm_compute; reflexivity|].
  repeat split; vm_compute; reflexivity.
Qed.

(** C9 (as the code has it).  [disconnect] of a registered connection
    returns and removes it, and only it, from the session's connection
    set, the socket map and the user's entry of the user-keyed map, whose
    other sockets stay; the entry is deleted when none is left.  Other
    sessions, the sockets and the durable store are not touched.  If other
    connections remain in the session, whosever they are, the user's entry
    is dropped from the in-memory roster and a [user_left] broadcast to
    the session is scheduled; if none remains, the session's in-memory
    entries are deleted and nothing is broadcast.  When the scheduled
    tasks then run before any other handler, every remaining healthy
    connection of the session receives the [user_left] event, nobody else
    receives anything, and the persistence removes the user's entry from
    the durable roster, while the durable session itself stays. *)
Theorem disconnect_unregisters :
  ∀ (w : Registry.world) (ws : Registry.WebSocket) (sid uid : string)
    (ui : Registry.user_info) (conns : gset Registry.WebSocket)
    (meta : Registry.session_meta),
    Registry.user_connections (Registry.manager w) !! ws = Some (sid, ui) →
    Registry.active_connections (Registry.manager w) !! sid = Some conns →
    Registry.sessions (Registry.manager w) !! sid = Some meta →
    Registry.user_id ui = Some uid → uid ≠ "" → sid ≠ "" →
    ∃ w' notify,
      Registry.disconnect w ws =
        ret (w', notify ++ [Registry.persist_leave sid (Some uid) ui]) ∧
      Registry.net w' = Registry.net w ∧ Registry.db w' = Registry.db w ∧
      Registry.user_connections (Registry.manager w') =
        delete ws (Registry.user_connections (Registry.manager w)) ∧
      Registry.user_id_connections (Registry.manager w') =
        match Registry.user_id_connections (Registry.manager w) !! uid with
        | Some socks =>
            if bool_decide (socks ∖ {[ws]} = ∅)
            then delete uid (Registry.user_id_connections (Registry.manager w))
            else <[uid := socks ∖ {[ws]}]>
                   (Registry.user_id_connections (Registry.manager w))
        | None => Registry.user_id_connections (Registry.manager w)
        end ∧
      (∀ sid', sid' ≠ sid →
         Registry.active_connections (Registry.manager w') !! sid' =
           Registry.active_connections (Registry.manager w) !! sid' ∧
         Registry.sessions (Registry.manager w') !! sid' =
           Registry.sessions (Registry.manager w) !! sid') ∧
      (if decide (conns ∖ {[ws]} = ∅) then
         Registry.active_connections (Registry.manager w') !! sid = None ∧
         Registry.sessions (Registry.manager w') !! sid = None ∧
         notify = []
       else
         Registry.active_connections (Registry.manager w') !! sid =
           Some (conns ∖ {[ws]}) ∧
         (∃ meta', Registry.sessions (Registry.manager w') !! sid = Some meta' ∧
            Registry.meta_participants meta' =
              List.filter (fun p => negb (bool_decide (Registry.user_id p = Some uid)))
                          (Registry.meta_participants meta)) ∧
         notify = [Registry.broadcast_task sid
                     (Registry.user_left ui (size (conns ∖ {[ws]})))]) ∧
      (∀ now, ∃ w'',
         Registry.disconnect_and_settle w ws now = ret w'' ∧
         (∀ c, Registry.inbox w'' c =
                 if decide (c ∈ conns ∖ {[ws]} ∧ c ∉ Registry.broken (Registry.net w))
                 then Registry.inbox w c ++
                        [Registry.user_left ui (size (conns ∖ {[ws]}))]
                 else Registry.inbox w c) ∧
         Registry.sessions (Registry.manager w'') =
           Registry.sessions (Registry.manager w') ∧
         Registry.user_id_connections (Registry.manager w'') =
           Registry.user_id_connections (Registry.manager w') ∧
         Registry.collab_sessions (Registry.db w'') !! sid =
           (fun s => Roster.remove_participant s uid now) <$>
             Registry.collab_sessions (Registry.db w) !! sid).
Proof.
  intros w ws sid uid ui conns meta Huc Hac Hse Hid Huid Hsid.
  assert (Htruthy : negb (String.eqb uid "") = true).
  { destruct (String.eqb_spec uid ""); done. }
  assert (Hsid' : String.eqb sid "" = false) by by apply String.eqb_neq.
  assert (Hpersist : ∀ w1, Registry.db w1 = Registry.db w → ∀ now, ∃ w'',
            Registry.run_spawned now w1 (Registry.persist_leave sid (Some uid) ui)
              = ret w'' ∧
            Registry.manager w'' = Registry.manager w1 ∧
            Registry.net w'' = Registry.net w1 ∧
            Registry.collab_sessions (Registry.db w'') !! sid =
              (fun s => Roster.remove_participant s uid now) <$>
                Registry.collab_sessions (Registry.db w) !! sid).
  { intros w1 Hdb now. cbn [Registry.run_spawned]. rewrite Hdb.
    destruct (Registry.collab_sessions (Registry.db w) !! sid) as [s|] eqn:Hs.
    - cbn [truthy]. rewrite Htruthy.
      eexists. split; [done|]. split; [done|]. split; [done|].
      cbn. by rewrite lookup_insert_eq.
    - eexists. split; [done|]. split; [done|]. split; [done|].
      by rewrite Hdb, Hs. }
  unfold Registry.disconnect_and_settle, Registry.disconnect. rewrite Huc, Hac.
  rewrite (getitem_Some _ _ _ Hse), bind_ret_l. rewrite Hid.
  cbn [truthy default from_option id]. rewrite Htruthy, Hsid'.
  case_bool_decide as Hempty; rewrite bind_ret_l;
    cbn [Registry.active_connections Registry.user_connections
         Registry.sessions Registry.user_id_connections].
  - eexists _, []. split; [reflexivity|].
    split; [done|]. split; [done|]. split; [done|].
    split.
    { cbn [Registry.manager Registry.with_manager Registry.user_id_connections].
      by destruct (Registry.user_id_connections (Registry.manager w) !! uid). }
    split.
    { intros sid' Hne. cbn. by rewrite !lookup_delete_ne. }
    split.
    { rewrite decide_True by done. cbn. by rewrite !lookup_delete_eq. }
    intros now. rewrite bind_ret_l. cbn [app Registry.run_all].
    match goal with
    | |- ∃ w'', (Registry.run_spawned now ?w1 _ ≫= _) = _ ∧ _ =>
        destruct (Hpersist w1 eq_refl now) as (w'' & Hrun & Hm & Hn & Hdoc)
    end.
    exists w''. rewrite Hrun, bind_ret_l. split; [done|].
    rewrite Hm. split; [|done].
    intros c. rewrite decide_False.
    + unfold Registry.inbox. by rewrite Hn.
    + rewrite Hempty. intros [H _]. by apply not_elem_of_empty in H.
  - eexists _, [_]. split; [reflexivity|].
    split; [done|]. split; [done|]. split; [done|].
    split.
    { cbn [Registry.manager Registry.with_manager Registry.user_id_connections].
      by destruct (Registry.user_id_connections (Registry.manager w) !! uid). }
    split.
    { intros sid' Hne. cbn. by rewrite !lookup_insert_ne. }
    split.
    { rewrite decide_False by done. cbn. rewrite !lookup_insert_eq.
      split; [done|]. split; [|done]. eexists. split; [done|]. done. }
    intros now. rewrite bind_ret_l. cbn [app Registry.run_all].
    set (msg := Registry.user_left ui (size (conns ∖ {[ws]}))).
    assert (Hrs : ∀ w1,
              Registry.run_spawned now w1 (Registry.broadcast_task sid msg) =
              Registry.broadcast_to_session w1 sid msg None) by done.
    rewrite Hrs.
    match goal with
    | |- ∃ w'', (Registry.broadcast_to_session ?w1 sid msg None ≫= _) = _ ∧ _ =>
        destruct (broadcast_to_session_total sid msg None w1) as (w2 & Hb & Hpost);
        set (w' := w1) in *
    end.
    assert (Hac' : Registry.active_connections (Registry.manager w') !! sid
                   = Some (conns ∖ {[ws]})).
    { subst w'. cbn. by rewrite lookup_insert_eq. }
    rewrite Hac' in Hpost. destruct Hpost as [Hdb Hbr Hse' Hu _ _ Hinb _].
    rewrite Hb, bind_ret_l.
    destruct (Hpersist w2 Hdb now) as (w'' & Hrun & Hm & Hn & Hdoc).
    exists w''. rewrite Hrun, bind_ret_l. split; [done|].
    rewrite Hm, Hse', Hu. split; [|done].
    intros c. unfold Registry.inbox at 1. rewrite Hn.
    change (default [] (Registry.received (Registry.net w2) !! c))
      with (Registry.inbox w2 c).
    rewrite Hinb. apply decide_ext. rewrite elem_of_elements.
    subst w'. cbn. split; [by intros (? & ? & _)|]. by intros [? ?].
Qed.

Lemma disconnect_unregisters_witness :
  Registry.user_connections (Registry.manager two_tabs) !! 1%nat = Some ("s", alice) ∧
  Registry.active_connections (Registry.manager two_tabs) !! "s" =
    Some (list_to_set [1; 2; 3]%nat) ∧
  Registry.sessions (Registry.manager two_tabs) !! "s" =
    Some (Registry.mkMeta "s" 0 [alice; bob]) ∧
  ∃ w' notify,
    Registry.disconnect two_tabs 1%nat =
      ret (w', notify ++ [Registry.persist_leave "s" (Some "A") alice]) ∧
    Registry.user_connections (Registry.manager w') !! 1%nat = None.
Proof.
  assert (H1 : Registry.user_connections (Registry.manager two_tabs) !! 1%nat
               = Some ("s", alice)) by (vm_compute; reflexivity).
  assert (H2 : Registry.active_connections (Registry.manager two_tabs) !! "s"
               = Some (list_to_set [1; 2; 3]%nat)) by (vm_compute; reflexivity).
  assert (H3 : Registry.sessions (Registry.manager two_tabs) !! "s"
               = Some (Registry.mkMeta "s" 0 [alice; bob]))
    by (vm_compute; reflexivity).
  split; [exact H1|]. split; [exact H2|]. split; [exact H3|].
  destruct (disconnect_unregisters two_tabs 1%nat "s" "A" alice _ _ H1 H2 H3
              eq_refl ltac:(discriminate) ltac:(discriminate))
    as (w' & notify & Hd & _ & _ & Huc & _).
  exists w', notify. split; [exact Hd|].
  rewrite Huc. apply lookup_delete_eq.
Defined.

(** C9, counterexample.  A has two live connections in the session,
    sockets 1 and 2, and B has socket 3.  When socket 1 disconnects, A is
    still connected on socket 2, and yet A is dropped from the in-memory
    roster, a [user_left] event for A is scheduled and delivered to the
    remaining connections, A's own socket 2 among them, and A's entry is
    removed from the durable roster rather than marked inactive. *)
Lemma user_left_with_another_live_connection :
  live_roster two_tabs = Some [alice; bob] ∧
  durable_ids two_tabs = Some ["A"; "B"] ∧
  ∃ w' w'',
    Registry.disconnect two_tabs 1%nat =
      ret (w', [Registry.broadcast_task "s" (Registry.user_left alice 2);
                Registry.persist_leave "s" (Some "A") alice]) ∧
    Registry.user_connections (Registry.manager w') !! 2%nat = Some ("s", alice) ∧
    live_sockets w' = Some [2; 3]%nat ∧
    sockets_of w' "A" = Some [2%nat] ∧
    live_roster w' = Some [bob] ∧
    Registry.disconnect_and_settle two_tabs 1%nat 9 = ret w'' ∧
    Registry.inbox w'' 2%nat =
      Registry.inbox two_tabs 2%nat ++ [Registry.user_left alice 2] ∧
    Registry.inbox w'' 3%nat =
      Registry.inbox two_tabs 3%nat ++ [Registry.user_left alice 2] ∧
    durable_ids w'' = Some ["B"].
Proof.
  split; [vm_compute; reflexivity|]. split; [vm_compute; reflexivity|].
  eexists _, _. split; [vm_compute; reflexivity|].
  repeat split; vm_compute; reflexivity.
Qed.

(* ===================================================================== *)
(** * Further properties *)
(* ===================================================================== *)

(* --------------------------------------------------------------------- *)
(** ** Quota guard: other users, repeated calls, solvency *)
(* --------------------------------------------------------------------- *)

Section QuotaFurther.
Import Quota QuotaRead.
Variable DEFAULT_QUOTA : Z.

Lemma key_inj uid uid' : key uid = key uid' → uid = uid'.
Proof. unfold key. simpl. intros H. by simplify_eq. Qed.

Lemma truthy_nonempty uid : uid ≠ "" → truthy (Some uid) = true.
Proof. intros H. simpl. by destruct (String.eqb_spec uid ""). Qed.

Lemma local_branch_other (q : gmap string Z) uid uid' cost :
  uid ≠ uid' →
  fst (local_branch DEFAULT_QUOTA q uid cost) !! uid' = q !! uid'.
Proof.
  intros Hne. unfold local_branch.
  destruct (q !! uid) as [entry|]; [destruct (entry <? cost)|]; simpl;
    by rewrite ?lookup_insert_ne.
Qed.

Lemma check_and_debit_local_store st user_id cost :
  _redis_client st = None →
  check_and_debit_user_quota DEFAULT_QUOTA st user_id cost =
    if truthy user_id then
      (mkState None
         (fst (local_branch DEFAULT_QUOTA (_local_quota st) (default "" user_id) cost)),
       snd (local_branch DEFAULT_QUOTA (_local_quota st) (default "" user_id) cost))
    else (st, true).
Proof.
  intros Hr. unfold check_and_debit_user_quota. rewrite Hr.
  destruct (truthy user_id); simpl; [|done].
  by destruct (local_branch _ _ _ _).
Qed.

End QuotaFurther.

(** X1. A call of the guard for one user leaves every other user's balance
    as it was in both stores: the other user's Redis key and the other
    user's entry of the process-local dictionary are what they were,
    whichever of the two stores the call worked on, and so is the balance
    the guard would read for the other user.  A call that reaches Redis
    is taken within the numbers that the script handles exactly. *)
Theorem check_and_debit_other_user :
  ∀ (DEFAULT_QUOTA : Z) (st : Quota.state) (user_id : option string)
    (uid' : string) (cost : Z),
    user_id ≠ Some uid' →
    script_exact DEFAULT_QUOTA st cost →
    let st' :=
      fst (Quota.check_and_debit_user_quota DEFAULT_QUOTA st user_id cost) in
    Quota._local_quota st' !! uid' = Quota._local_quota st !! uid' ∧
    match Quota._redis_client st, Quota._redis_client st' with
    | Some r, Some r' =>
        Quota.keys r' !! Quota.key uid' = Quota.keys r !! Quota.key uid' ∧
        Quota.reachable r' = Quota.reachable r
    | None, None => True
    | _, _ => False
    end ∧
    Quota.stored_balance DEFAULT_QUOTA st' uid'
    = Quota.stored_balance DEFAULT_QUOTA st uid'.
Proof.
  intros D st user_id uid' cost Hne _ st'. subst st'.
  unfold Quota.check_and_debit_user_quota.
  destruct (truthy user_id) eqn:Ht; cbn [negb].
  { destruct user_id as [uid|]; [|done]. cbn [default from_option id].
    assert (Hu : uid ≠ uid') by congruence.
    pose proof (local_branch_other D (Quota._local_quota st) uid uid' cost Hu) as Ho.
    assert (Hloc :
      let st1 :=
        (let '(q, ok) := Quota.local_branch D (Quota._local_quota st) uid cost in
         (Quota.mkState (Quota._redis_client st) q, ok)).1 in
      Quota._local_quota st1 !! uid' = Quota._local_quota st !! uid' ∧
      Quota._redis_client st1 = Quota._redis_client st ∧
      Quota.stored_balance D st1 uid' = Quota.stored_balance D st uid').
    { destruct (Quota.local_branch D (Quota._local_quota st) uid cost) as [q ok].
      unfold Quota.stored_balance. cbn in *. by rewrite Ho. }
    destruct (Quota._redis_client st) as [[up ks]|] eqn:Hr.
    - destruct up.
      + rewrite redis_branch_reachable.
        assert (Hk : Quota.key uid ≠ Quota.key uid')
          by (intros Hk; by apply key_inj in Hk).
        unfold Quota.stored_balance.
        destruct (_ <? cost); cbn; rewrite ?Hr; cbn;
          by rewrite ?lookup_insert_ne.
      + cbn. destruct Hloc as (Hl & Hc & Hb). rewrite Hc. done.
    - destruct Hloc as (Hl & Hc & Hb). rewrite Hc. done. }
  cbn. by destruct (Quota._redis_client st).
Qed.

Lemma check_and_debit_other_user_witness :
  Some "a" ≠ Some "b" ∧
  script_exact 100 both_stores 7 ∧
  Quota._local_quota
    (fst (Quota.check_and_debit_user_quota 100 both_stores (Some "a") 7)) !! "b"
    = Some 7 ∧
  Quota.stored_balance 100
    (fst (Quota.check_and_debit_user_quota 100 both_stores (Some "a") 7)) "b"
    = 50.
Proof.
  assert (H : Some "a" ≠ Some "b") by discriminate.
  assert (Hx : script_exact 100 both_stores 7).
  { intros r [= <-] _. unfold lua_exact. split; [lia|]. split; [lia|].
    intros k v Hk. simpl in Hk. apply lookup_singleton_Some in Hk as [_ <-]. lia. }
  split; [exact H|]. split; [exact Hx|].
  destruct (check_and_debit_other_user 100 both_stores (Some "a") "b" 7 H Hx)
    as (Hl & _ & Hb).
  split; [exact Hl|exact Hb].
Defined.

(** X2. Without a Redis client, [get_remaining_quota] and the guard agree:
    a call that is allowed lowers the remaining quota of the user by
    exactly the cost, and a call that is refused leaves it as it was. *)
Theorem remaining_quota_after_debit :
  ∀ (DEFAULT_QUOTA : Z) (sync_get : Quota.redis → string → M (option Z))
    (q : gmap string Z) (uid : string) (cost : Z),
    uid ≠ "" →
    let st := Quota.mkState None q in
    let r := Quota.check_and_debit_user_quota DEFAULT_QUOTA st (Some uid) cost in
    QuotaRead.get_remaining_quota DEFAULT_QUOTA sync_get (fst r) (Some uid) =
      if snd r
      then QuotaRead.get_remaining_quota DEFAULT_QUOTA sync_get st (Some uid) - cost
      else QuotaRead.get_remaining_quota DEFAULT_QUOTA sync_get st (Some uid).
Proof.
  intros D sync_get q uid cost Huid st r. subst r st.
  rewrite check_and_debit_local_store by done.
  unfold QuotaRead.get_remaining_quota.
  rewrite (truthy_nonempty uid Huid). simpl.
  unfold Quota.local_branch.
  destruct (q !! uid) as [entry|] eqn:Hq; simpl.
  - destruct (entry <? cost); simpl; [by rewrite Hq|].
    by rewrite lookup_insert_eq.
  - by rewrite lookup_insert_eq.
Qed.

Lemma remaining_quota_after_debit_witness :
  "u" ≠ "" ∧
  QuotaRead.get_remaining_quota 100 (fun _ _ => raise ConnectionError)
    (fst (Quota.check_and_debit_user_quota 100 (Quota.mkState None ∅) (Some "u") 3))
    (Some "u") = 100 - 3.
Proof.
  assert (H : "u" ≠ "") by discriminate.
  split; [exact H|].
  exact (remaining_quota_after_debit 100 (fun _ _ => raise ConnectionError)
           ∅ "u" 3 H).
Defined.


Section QuotaRepeated.
Import Quota.
Variable DEFAULT_QUOTA : Z.

Lemma min_succ_div (n : nat) (e cost : Z) :
  0 < cost → cost ≤ e →
  S (Nat.min n (Z.to_nat ((e - cost) / cost))) =
    Nat.min (S n) (Z.to_nat (e / cost)).
Proof.
  intros Hc Hge.
  assert (Hd : e / cost = (e - cost) / cost + 1).
  { replace e with ((e - cost) + 1 * cost) at 1 by lia.
    by rewrite Z.div_add by lia. }
  assert (0 ≤ (e - cost) / cost) by (apply Z.div_pos; lia).
  rewrite Hd, Z2Nat.inj_add by lia.
  change (Z.to_nat 1) with 1%nat. rewrite Nat.add_1_r.
  apply Nat.succ_min_distr.
Qed.

Lemma repeat_debit_local n (q : gmap string Z) uid cost :
  uid ≠ "" →
  repeat_debit DEFAULT_QUOTA (S n) (mkState None q) (Some uid) cost =
    let r := local_branch DEFAULT_QUOTA q uid cost in
    let r' := repeat_debit DEFAULT_QUOTA n (mkState None (fst r)) (Some uid) cost in
    (fst r', if snd r then S (snd r') else snd r').
Proof.
  intros Huid. cbn [repeat_debit].
  rewrite check_and_debit_local_store by done.
  rewrite (truthy_nonempty uid Huid). cbn [default _local_quota].
  by destruct (repeat_debit _ n _ _ _).
Qed.

Lemma repeat_debit_known n : ∀ (q : gmap string Z) uid entry cost,
  uid ≠ "" → 0 < cost → 0 ≤ entry → q !! uid = Some entry →
  snd (repeat_debit DEFAULT_QUOTA n (mkState None q) (Some uid) cost) =
    Nat.min n (Z.to_nat (entry / cost)).
Proof.
  induction n as [|n IH]; intros q uid entry cost Huid Hc He Hq; [done|].
  rewrite repeat_debit_local by done.
  rewrite (local_branch_known DEFAULT_QUOTA q uid entry cost Hq).
  destruct (Z.ltb_spec entry cost) as [Hlt|Hge]; cbn [fst snd].
  - rewrite (IH q uid entry cost Huid Hc He Hq).
    rewrite Z.div_small by lia. by rewrite !Nat.min_0_r.
  - rewrite (IH (<[uid := entry - cost]> q) uid (entry - cost) cost Huid Hc);
      [|lia|by rewrite lookup_insert_eq].
    by apply min_succ_div.
Qed.

End QuotaRepeated.

(** X3. Without a Redis client, a user that was never debited can make
    exactly [DEFAULT_QUOTA / cost] calls of a cost between 1 and the
    default quota: of [n] successive calls the first
    [min n (DEFAULT_QUOTA / cost)] are allowed and the rest refused. *)
Theorem fresh_user_allowed_calls :
  ∀ (DEFAULT_QUOTA : Z) (n : nat) (q : gmap string Z) (uid : string) (cost : Z),
    uid ≠ "" → q !! uid = None → 0 < cost → cost ≤ DEFAULT_QUOTA →
    snd (repeat_debit DEFAULT_QUOTA n (Quota.mkState None q) (Some uid) cost) =
      Nat.min n (Z.to_nat (DEFAULT_QUOTA / cost)).
Proof.
  intros D n q uid cost Huid Hq Hc Hle. destruct n as [|n]; [done|].
  rewrite repeat_debit_local by done.
  unfold Quota.local_branch. rewrite Hq. cbn [fst snd].
  rewrite (repeat_debit_known D n (<[uid := D - cost]> q) uid (D - cost) cost
             Huid Hc); [|lia|by rewrite lookup_insert_eq].
  by apply min_succ_div.
Qed.

Lemma fresh_user_allowed_calls_witness :
  "u" ≠ "" ∧ (∅ : gmap string Z) !! "u" = None ∧ 0 < 30 ∧ 30 ≤ 100 ∧
  snd (repeat_debit 100 5 (Quota.mkState None ∅) (Some "u") 30) = 3%nat.
Proof.
  assert (H1 : "u" ≠ "") by discriminate.
  assert (H2 : (∅ : gmap string Z) !! "u" = None) by reflexivity.
  assert (H3 : 0 < 30) by lia.
  assert (H4 : 30 ≤ 100) by lia.
  split; [exact H1|]. split; [exact H2|]. split; [exact H3|]. split; [exact H4|].
  exact (fresh_user_allowed_calls 100 5 ∅ "u" 30 H1 H2 H3 H4).
Defined.

(** X4. With a cost between zero and the default quota, and a default
    quota within the integers that the Lua script handles exactly (up to
    [2^53], well inside Redis's 64-bit integers), a call keeps every
    balance, in Redis and in the process, between zero and that bound. *)
Theorem check_and_debit_keeps_solvent :
  ∀ (DEFAULT_QUOTA : Z) (st : Quota.state) (user_id : option string) (cost : Z),
    0 ≤ cost → cost ≤ DEFAULT_QUOTA → DEFAULT_QUOTA ≤ lua_exact → solvent st →
    solvent (fst (Quota.check_and_debit_user_quota DEFAULT_QUOTA st user_id cost)).
Proof.
  intros D st user_id cost Hc0 Hc HD [Hloc Hred].
  unfold Quota.check_and_debit_user_quota.
  destruct (truthy user_id); simpl; [|by split].
  set (uid := default "" user_id).
  assert (Hfb : solvent
    (let '(q, ok) := Quota.local_branch D (Quota._local_quota st) uid cost in
     (Quota.mkState (Quota._redis_client st) q, ok)).1).
  { unfold Quota.local_branch.
    destruct (Quota._local_quota st !! uid) as [entry|] eqn:Hq;
      [destruct (Z.ltb_spec entry cost)|]; simpl; (split; [|exact Hred]); simpl;
      try exact Hloc; intros u bal;
      (destruct (decide (uid = u)) as [<-|Hne];
       [rewrite lookup_insert_eq; intros [= <-];
        try (pose proof (Hloc _ _ Hq)); lia
       |rewrite lookup_insert_ne by done; apply Hloc]). }
  destruct (Quota._redis_client st) as [[up ks]|] eqn:Hr; [|exact Hfb].
  destruct up; [|exact Hfb].
  rewrite redis_branch_reachable.
  assert (Hbal : 0 ≤ default D (ks !! Quota.key uid) ≤ lua_exact).
  { destruct (ks !! Quota.key uid) as [v|] eqn:Hk; simpl; [|lia].
    by apply (Hred _ _ _ eq_refl Hk). }
  destruct (Z.ltb_spec (default D (ks !! Quota.key uid)) cost); simpl;
    (split; simpl; [exact Hloc|]); intros r k bal [= <-]; simpl;
    (destruct (decide (Quota.key uid = k)) as [<-|Hne];
     [rewrite lookup_insert_eq; intros [= <-]; lia
     |rewrite lookup_insert_ne by done; by apply (Hred _ _ _ eq_refl)]).
Qed.

Lemma check_and_debit_keeps_solvent_witness :
  0 ≤ 5 ∧ 5 ≤ 100 ∧ 100 ≤ lua_exact ∧ solvent both_stores ∧
  solvent (fst (Quota.check_and_debit_user_quota 100 both_stores (Some "u") 5)).
Proof.
  assert (H0 : 0 ≤ 5) by lia.
  assert (H1 : 5 ≤ 100) by lia.
  assert (H2 : 100 ≤ lua_exact) by (vm_compute; discriminate).
  assert (H3 : solvent both_stores).
  { unfold lua_exact. split; simpl.
    - intros uid bal Hq. apply lookup_singleton_Some in Hq as [_ <-]. lia.
    - intros r k bal [= <-] Hk. simpl in Hk.
      apply lookup_singleton_Some in Hk as [_ <-]. lia. }
  split; [exact H0|]. split; [exact H1|]. split; [exact H2|]. split; [exact H3|].
  exact (check_and_debit_keeps_solvent 100 both_stores (Some "u") 5 H0 H1 H2 H3).
Defined.

(* --------------------------------------------------------------------- *)
(** ** Task queue: order, record fields, status fetch, the one worker *)
(* --------------------------------------------------------------------- *)

Section TaskFurther.
Import Tasks.




Definition fields_inv (sys : system) : Prop :=
  ∀ id t, store sys !! id = Some t → fields_match t.

Definition origin_kept (sys sys' : system) : Prop :=
  ∀ id t, store sys !! id = Some t →
    ∃ t', store sys' !! id = Some t' ∧ same_origin t t'.

Lemma fields_inv_insert sys t q fl :
  fields_inv sys → fields_match t →
  fields_inv (mkSystem (<[task_id t := t]> (store sys)) q fl).
Proof.
  intros Hinv Ht id t0; simpl. destruct (decide (task_id t = id)) as [<-|Hne].
  - rewrite lookup_insert_eq. by intros [= <-].
  - rewrite lookup_insert_ne by done. apply Hinv.
Qed.

Lemma origin_kept_insert sys t0 t q fl :
  store sys !! task_id t = Some t0 → same_origin t0 t →
  origin_kept sys (mkSystem (<[task_id t := t]> (store sys)) q fl).
Proof.
  intros H0 Hsame id t1 Ht1; simpl.
  destruct (decide (task_id t = id)) as [<-|Hne].
  - rewrite lookup_insert_eq. exists t. split; [done|]. congruence.
  - rewrite lookup_insert_ne by done. exists t1. by repeat split.
Qed.

Lemma origin_kept_same sys q fl : origin_kept sys (mkSystem (store sys) q fl).
Proof. intros id t Ht. exists t. by repeat split. Qed.

Lemma origin_kept_trans s1 s2 s3 :
  origin_kept s1 s2 → origin_kept s2 s3 → origin_kept s1 s3.
Proof.
  intros H12 H23 id t Ht.
  destruct (H12 id t Ht) as (t2 & Ht2 & Ha & Hb & Hc).
  destruct (H23 id t2 Ht2) as (t3 & Ht3 & Ha' & Hb' & Hc').
  exists t3. split; [done|]. unfold same_origin. repeat split; congruence.
Qed.

Lemma step_fields sys e sys' :
  wf sys → fields_inv sys → step sys e = Some sys' →
  fields_inv sys' ∧ origin_kept sys sys'.
Proof.
  intros [Hk Hn Hq Hf] Hinv Hstep.
  destruct e as [id req now|now ok|outcome now ok ok']; simpl in Hstep.
  - unfold submit in Hstep. destruct (store sys !! id) eqn:Hfresh; [done|].
    injection Hstep as <-. split.
    + apply (fields_inv_insert sys (mkTask id queued req None None None now now));
        [done|]. by split.
    + intros id' t Ht; simpl. exists t. split; [|by repeat split].
      rewrite lookup_insert_ne; [done|]. congruence.
  - unfold worker_dequeue in Hstep. destruct (in_flight sys); [done|].
    destruct (_job_queue sys) as [|id rest] eqn:Hqueue.
    { injection Hstep as <-. split; [done|]. intros i t Ht. exists t. by repeat split. }
    destruct (Hq id) as (t & Ht & Hst); [by left|].
    rewrite Ht in Hstep. pose proof (Hinv id t Ht) as Hm.
    unfold fields_match in Hm. rewrite Hst in Hm. destruct Hm as [Hres Herr].
    destruct ok; simpl in Hstep; injection Hstep as <-.
    + split.
      * apply (fields_inv_insert sys (mark_running t now)); [done|].
        unfold fields_match; simpl. by split.
      * apply (origin_kept_insert sys t (mark_running t now)); simpl.
        -- by rewrite (Hk id t Ht).
        -- by repeat split.
    + split; [done|apply origin_kept_same].
  - unfold worker_finish in Hstep.
    destruct (in_flight sys) as [t|] eqn:Hfl; [|done].
    destruct (Hf t eq_refl) as (Ht & Hrun & _).
    pose proof (Hinv _ t Ht) as Hm.
    unfold fields_match in Hm. rewrite Hrun in Hm. destruct Hm as [Hres Herr].
    assert (Hwrite : ∀ t1, task_id t1 = task_id t → same_origin t t1 →
              fields_match t1 →
              fields_inv (mkSystem (<[task_id t1 := t1]> (store sys)) (_job_queue sys) None) ∧
              origin_kept sys (mkSystem (<[task_id t1 := t1]> (store sys)) (_job_queue sys) None)).
    { intros t1 Hid Hsame Hm1. split; [by apply fields_inv_insert|].
      apply (origin_kept_insert sys t t1); [by rewrite Hid|done]. }
    assert (Hkeep : fields_inv (mkSystem (store sys) (_job_queue sys) None) ∧
              origin_kept sys (mkSystem (store sys) (_job_queue sys) None)).
    { split; [done|apply origin_kept_same]. }
    destruct outcome as [err|payload]; simpl in Hstep.
    + destruct ok'; simpl in Hstep; injection Hstep as <-; [|done].
      apply (Hwrite (mark_failed t err now)); [done|by repeat split|].
      unfold fields_match; simpl. by eexists.
    + destruct ok; simpl in Hstep.
      { injection Hstep as <-.
        apply (Hwrite (mark_completed t payload None now)); [done|by repeat split|].
        unfold fields_match; simpl. split; [by eexists|done]. }
      destruct ok'; simpl in Hstep; injection Hstep as <-; [|done].
      apply (Hwrite (mark_failed (mark_completed t payload None now) "save failed" now));
        [done|by repeat split|].
      unfold fields_match; simpl. by eexists.
Qed.

Lemma run_fields es : ∀ sys sys',
  wf sys → fields_inv sys → run sys es = Some sys' →
  fields_inv sys' ∧ origin_kept sys sys'.
Proof.
  induction es as [|e es IH]; intros sys sys' Hwf Hinv Hrun; simpl in *.
  - injection Hrun as <-. split; [done|]. intros i t Ht. exists t. by repeat split.
  - destruct (step sys e) as [sys1|] eqn:Hstep; [|done].
    destruct (step_fields _ _ _ Hwf Hinv Hstep) as [Hinv1 Hk1].
    destruct (step_wf _ _ _ Hwf Hstep) as [Hwf1 _].
    destruct (IH _ _ Hwf1 Hinv1 Hrun) as [Hinv' Hk'].
    split; [done|]. by eapply origin_kept_trans.
Qed.

End TaskFurther.



(** X6. In every task record of a run the result and error fields go with
    the status: a queued or running record has neither, a completed record
    has a result and no error, and a failed record has an error. *)
Theorem task_fields_match_status :
  ∀ (es : list Tasks.event) (sys : Tasks.system) (id : string)
    (t : Tasks.GenerationTask),
    Tasks.run Tasks.init es = Some sys →
    Tasks.store sys !! id = Some t →
    fields_match t.
Proof.
  intros es sys id t Hrun Ht.
  destruct (run_fields es Tasks.init sys wf_init) as [Hinv _]; [|done|by eapply Hinv].
  intros i t0. simpl. by rewrite lookup_empty.
Qed.

Lemma task_fields_match_status_witness :
  ∃ sys t,
    Tasks.run Tasks.init
      [Tasks.Submit "t1" "{}" 0; Tasks.WorkerDequeue 1 true;
       Tasks.WorkerFinish (inl "rate limited") 2 true true] = Some sys ∧
    Tasks.store sys !! "t1" = Some t ∧
    fields_match t.
Proof.
  eexists _, _.
  split; [vm_compute; reflexivity|]. split; [vm_compute; reflexivity|].
  refine (task_fields_match_status
    [Tasks.Submit "t1" "{}" 0; Tasks.WorkerDequeue 1 true;
     Tasks.WorkerFinish (inl "rate limited") 2 true true] _ "t1" _ _ _);
    vm_compute; reflexivity.
Defined.

(** X7. A task that was submitted is found by every later status fetch,
    never answered with 404, and the record found still has the id, the
    request payload and the creation time of the submission: the worker
    rewrites only the status, the result, the error and the update
    time. *)
Theorem submitted_task_is_always_found :
  ∀ (es es' : list Tasks.event) (sys sys' : Tasks.system)
    (id req : string) (now : Z),
    Tasks.run Tasks.init es = Some sys →
    Tasks.run sys (Tasks.Submit id req now :: es') = Some sys' →
    ∃ t, Tasks.store sys' !! id = Some t ∧
         Tasks.request t = req ∧ Tasks.created_at t = now ∧
         TaskApi.get_generation_status sys' id =
           TaskApi.content
             (TaskApi.mkView id (Tasks.status t) (Tasks.result t)
                (Tasks.artifact_path t) (Tasks.error t)).
Proof.
  intros es es' sys sys' id req now Hrun Hrun'.
  destruct (run_wf es _ _ wf_init Hrun) as [Hwf _].
  assert (Hinv : fields_inv sys).
  { destruct (run_fields es Tasks.init sys wf_init) as [Hinv _]; [|done|done].
    intros i t0. simpl. by rewrite lookup_empty. }
  simpl in Hrun'.
  destruct (Tasks.submit sys id req now) as [sys1|] eqn:Hsub; [|done].
  destruct (submit_wf _ _ _ _ _ Hwf Hsub) as [Hwf1 _].
  destruct (step_fields sys (Tasks.Submit id req now) sys1 Hwf Hinv Hsub)
    as [Hinv1 _].
  destruct (run_fields es' sys1 sys' Hwf1 Hinv1 Hrun') as [_ Hkept].
  unfold Tasks.submit in Hsub. destruct (Tasks.store sys !! id); [done|].
  injection Hsub as <-.
  destruct (Hkept id (Tasks.mkTask id Tasks.queued req None None None now now))
    as (t & Ht & Hid & Hreq & Hcr).
  { simpl. by rewrite lookup_insert_eq. }
  exists t. split; [done|]. split; [done|]. split; [done|].
  unfold TaskApi.get_generation_status. rewrite Ht. simpl in Hid. by rewrite Hid.
Qed.

Lemma submitted_task_is_always_found_witness :
  ∃ sys sys' t,
    Tasks.run Tasks.init [] = Some sys ∧
    Tasks.run sys [Tasks.Submit "t1" "{}" 0; Tasks.WorkerDequeue 1 true;
                   Tasks.WorkerFinish (inr "{files: 3}") 2 true true] = Some sys' ∧
    Tasks.store sys' !! "t1" = Some t ∧ Tasks.request t = "{}".
Proof.
  assert (H1 : Tasks.run Tasks.init [] = Some Tasks.init) by reflexivity.
  assert (H2 : Tasks.run Tasks.init
             [Tasks.Submit "t1" "{}" 0; Tasks.WorkerDequeue 1 true;
              Tasks.WorkerFinish (inr "{files: 3}") 2 true true] =
           Some (Tasks.mkSystem
             (<["t1" := Tasks.mark_completed (Tasks.mark_running
                 (Tasks.mkTask "t1" Tasks.queued "{}" None None None 0 0) 1)
                 "{files: 3}" None 2]>
               (<["t1" := Tasks.mark_running
                   (Tasks.mkTask "t1" Tasks.queued "{}" None None None 0 0) 1]>
                 (<["t1" := Tasks.mkTask "t1" Tasks.queued "{}" None None None 0 0]> ∅)))
             [] None)) by (vm_compute; reflexivity).
  destruct (submitted_task_is_always_found [] _ _ _ "t1" "{}" 0 H1 H2)
    as (t & Ht & Hreq & _).
  eexists _, _, t. split; [exact H1|]. split; [exact H2|]. split; [exact Ht|exact Hreq].
Defined.

(** X8. However many generation requests arrive, and whether or not their
    inserts succeed, exactly one worker is started: by the first request,
    and never again. *)
Theorem one_worker_is_started :
  ∀ (reqs : list (string * string * Z * store_reply)) (sys sys' : Tasks.system)
    (w' : TaskApi.worker),
    reqs ≠ [] →
    submit_all TaskApi.no_worker sys reqs = Some (w', sys') →
    TaskApi.workers_started w' = 1%nat ∧ TaskApi._worker_started w' = true.
Proof.
  assert (Hkeep : ∀ reqs w sys w' sys', TaskApi._worker_started w = true →
            submit_all w sys reqs = Some (w', sys') → w' = w).
  { induction reqs as [|[[[id req] now] ok] reqs IH]; intros w sys w' sys' Hw;
      simpl; [by intros [= <- _]|].
    unfold TaskApi.generate_project_async, TaskApi._ensure_worker.
    rewrite Hw. destruct ok as [|text]; [destruct (Tasks.submit sys id req now); [|done]|];
      by apply IH. }
  intros [|[[[id req] now] ok] reqs] sys sys' w' Hne; [done|].
  simpl. unfold TaskApi.generate_project_async, TaskApi._ensure_worker. simpl.
  destruct ok as [|text]; [destruct (Tasks.submit sys id req now); [|done]|];
    intros Hall; by apply Hkeep in Hall as ->.
Qed.

Lemma one_worker_is_started_witness :
  [("t1", "{}", 0, accepted); ("t2", "{}", 1, refused "timed out")] ≠ [] ∧
  ∃ w' sys',
    submit_all TaskApi.no_worker Tasks.init
      [("t1", "{}", 0, accepted); ("t2", "{}", 1, refused "timed out")] = Some (w', sys') ∧
    TaskApi.workers_started w' = 1%nat.
Proof.
  assert (H : [("t1", "{}", 0, accepted); ("t2", "{}", 1, refused "timed out")] ≠ []) by discriminate.
  split; [exact H|].
  assert (H2 : submit_all TaskApi.no_worker Tasks.init
      [("t1", "{}", 0, accepted); ("t2", "{}", 1, refused "timed out")] =
      Some (TaskApi.mkWorker true 1,
            Tasks.mkSystem
              (<["t1" := Tasks.mkTask "t1" Tasks.queued "{}" None None None 0 0]> ∅)
              ["t1"] None)) by (vm_compute; reflexivity).
  eexists _, _. split; [exact H2|].
  exact (proj1 (one_worker_is_started _ _ _ _ H H2)).
Defined.

(* --------------------------------------------------------------------- *)
(** ** Status stream: closing, repetitions, the Redis path *)
(* --------------------------------------------------------------------- *)

Section StreamFurther.
Import Tasks Stream StreamRedis.

Lemma relay_passing pre : ∀ rest,
  Forall passing pre →
  relay (pre ++ rest) =
    (map relay_json (raws pre) ++ fst (relay rest), snd (relay rest)).
Proof.
  induction pre as [|i pre IH]; intros rest Hpre.
  - simpl. by destruct (relay rest).
  - apply Forall_cons in Hpre as [Hi Hpre]. specialize (IH rest Hpre).
    destruct i as [|ty|[raw st err|raw]|]; simpl in *; try done.
    rewrite Hi, IH. done.
Qed.

End StreamFurther.

(** X9. On the Redis path every published message is relayed once, in
    order, up to the first one that carries a terminal status or an
    error; that one is relayed once, the connection is closed, later
    items are ignored and the polling loop never runs.  When the
    subscription raises instead, what was relayed so far is followed by
    the polling loop from its start. *)
Theorem redis_stream_relays_until_terminal :
  ∀ (pre rest : list StreamRedis.item) (tid : string)
    (polls : list (option Tasks.GenerationTask)),
    Forall passing pre →
    (∀ raw status error,
       StreamRedis.closing status error = true →
       StreamRedis.task_progress_ws true
         (pre ++ StreamRedis.item_message (StreamRedis.json_object raw status error)
              :: rest) tid polls =
         map inl (map StreamRedis.relay_json (raws pre) ++
                  [StreamRedis.relay_json raw; StreamRedis.relay_close])) ∧
    StreamRedis.task_progress_ws true (pre ++ StreamRedis.item_raise :: rest)
      tid polls =
      map inl (map StreamRedis.relay_json (raws pre)) ++
      map inr (Stream.task_progress_ws_fallback tid polls).
Proof.
  intros pre rest tid polls Hpre. split.
  - intros raw status error Hc. unfold StreamRedis.task_progress_ws.
    rewrite relay_passing by done. simpl. rewrite Hc. done.
  - unfold StreamRedis.task_progress_ws.
    rewrite relay_passing by done. simpl. by rewrite app_nil_r.
Qed.

Lemma redis_stream_relays_until_terminal_witness :
  Forall passing
    [StreamRedis.item_other "subscribe";
     StreamRedis.item_message (StreamRedis.json_object "m1" (Some "running") None)] ∧
  StreamRedis.task_progress_ws true
    ([StreamRedis.item_other "subscribe";
      StreamRedis.item_message (StreamRedis.json_object "m1" (Some "running") None)]
     ++ StreamRedis.item_raise :: []) "T" [] =
    map inl (map StreamRedis.relay_json ["m1"]) ++
    map inr (Stream.task_progress_ws_fallback "T" []).
Proof.
  assert (H : Forall passing
    [StreamRedis.item_other "subscribe";
     StreamRedis.item_message (StreamRedis.json_object "m1" (Some "running") None)]).
  { repeat constructor. }
  split; [exact H|].
  exact (proj2 (redis_stream_relays_until_terminal _ [] "T" [] H)).
Defined.

(** X10. While the client stays connected, the polling handler closes
    the connection exactly when one of its lookups finds the task in a
    terminal status or raises; while the task is missing or not terminal
    the stream stays open.  The close is the last thing the handler does.
    When the lookups return, the handler performs the events of the loop
    and nothing else; when the first lookup to stop the loop is one that
    raises, the events of the loop so far are followed by the
    [internal_error] message with the text of the exception and by the
    close, and no terminal payload has been sent. *)
Theorem fallback_closes_iff_terminal_or_error :
  ∀ (tid : string) (polls : list (string + option Tasks.GenerationTask))
    (last : option Tasks.TaskStatus),
    (StreamFallback.loop_event Stream.close ∈ StreamFallback.poll_loop tid last polls
       ↔ ∃ p, p ∈ polls ∧ stops p) ∧
    (∀ pre post,
       StreamFallback.poll_loop tid last polls =
         pre ++ StreamFallback.loop_event Stream.close :: post → post = []) ∧
    (∀ found, polls = map inr found →
       StreamFallback.poll_loop tid last polls =
         map StreamFallback.loop_event (Stream.poll_loop tid last found)) ∧
    (∀ found detail rest,
       polls = map inr found ++ inl detail :: rest →
       Forall non_terminal_poll found →
       StreamFallback.poll_loop tid last polls =
         map StreamFallback.loop_event (Stream.poll_loop tid last found) ++
         [StreamFallback.send_internal_error detail;
          StreamFallback.loop_event Stream.close] ∧
       Forall quiet (Stream.poll_loop tid last found)).
Proof.
  intros tid polls. induction polls as [|[d|[t|]] polls IH]; intros last.
  - split; [|split; [|split]].
    + simpl. split; [intros H; by apply not_elem_of_nil in H|].
      intros (p & Hp & _). by apply not_elem_of_nil in Hp.
    + intros pre post H. simpl in H. by destruct pre.
    + intros [|? ?] H; [done|discriminate].
    + intros [|? ?] detail rest H; discriminate.
  - split; [|split; [|split]].
    + simpl. split; [intros _; exists (inl d); split; [by left|done]|].
      intros _. by right; left.
    + intros pre post H. simpl in H.
      destruct pre as [|e1 [|e2 [|e3 pre]]]; simplify_eq/=; done.
    + intros [|? ?] H; discriminate.
    + intros [|o found] detail rest H Hnt; [|discriminate].
      simpl in H. injection H as -> _. simpl. split; [done|constructor].
  - destruct (IH (Some (Tasks.status t))) as (IHc & IHl & IHf & IHe).
    destruct (IH last) as (IHc' & IHl' & IHf' & IHe').
    destruct (Tasks.terminal (Tasks.status t)) eqn:Hterm.
    + split; [|split; [|split]].
      * split; [intros _; exists (inr (Some t)); split; [by left|done]|].
        intros _. simpl. rewrite Hterm. apply elem_of_app. right. by right; left.
      * intros pre post H. simpl in H. rewrite Hterm in H.
        revert H. destruct (negb _); simpl; intros H.
        -- destruct pre as [|e1 [|e2 [|e3 [|e4 pre]]]]; simplify_eq/=; done.
        -- destruct pre as [|e1 [|e2 [|e3 pre]]]; simplify_eq/=; done.
      * intros [|o found] H; [discriminate|]. injection H as <- ->.
        simpl. rewrite Hterm. destruct (negb _); simpl; done.
      * intros [|o found] detail rest H Hnt; [discriminate|].
        injection H as <- ->. apply Forall_cons in Hnt as [Hnt _].
        specialize (Hnt t eq_refl). congruence.
    + assert (Hstep : StreamFallback.poll_loop tid last (inr (Some t) :: polls) =
                (if bool_decide (Some (Tasks.status t) = last) then []
                 else [StreamFallback.loop_event
                         (Stream.send_json (Stream.payload_of t))]) ++
                StreamFallback.poll_loop tid (Some (Tasks.status t)) polls).
      { simpl. rewrite Hterm.
        destruct (bool_decide_reflect (Some (Tasks.status t) = last)) as [<-|Hne];
          done. }
      rewrite Hstep. split; [|split; [|split]].
      * rewrite elem_of_app, IHc. split.
        -- intros [Hin|(p & Hp & Hs)].
           ++ destruct (bool_decide _); [by apply not_elem_of_nil in Hin|].
              apply list_elem_of_singleton in Hin. done.
           ++ exists p. split; [by right|done].
        -- intros (p & Hp & Hs). right.
           apply elem_of_cons in Hp as [->|Hp]; [simpl in Hs; congruence|].
           by exists p.
      * intros pre post. destruct (bool_decide _); simpl; intros H.
        -- by apply (IHl pre).
        -- destruct pre as [|e pre]; [discriminate|].
           injection H as _ H. by apply (IHl pre).
      * intros [|o found] H; [discriminate|]. injection H as <- ->.
        rewrite poll_loop_non_terminal by done. rewrite map_app.
        rewrite (IHf found eq_refl). by destruct (bool_decide _).
      * intros [|o found] detail rest H Hnt; [discriminate|].
        injection H as <- ->. apply Forall_cons in Hnt as [_ Hnt].
        destruct (IHe found detail rest eq_refl Hnt) as [Heq Hq].
        rewrite poll_loop_non_terminal by done. rewrite Heq, map_app, app_assoc.
        split; [by destruct (bool_decide _)|].
        apply Forall_app. split; [|done].
        destruct (bool_decide _); constructor; [|constructor].
        split; [|done]. simpl. by rewrite Hterm.
  - destruct (IH last) as (IHc & IHl & IHf & IHe). split; [|split; [|split]].
    + simpl. rewrite elem_of_cons, IHc. split.
      * intros [Hc|(p & Hp & Hs)]; [done|]. exists p. split; [by right|done].
      * intros (p & Hp & Hs). right.
        apply elem_of_cons in Hp as [->|Hp]; [done|]. by exists p.
    + intros pre post H. simpl in H. destruct pre as [|e pre]; [discriminate|].
      injection H as _ H. by apply (IHl pre).
    + intros [|o found] H; [discriminate|]. injection H as <- ->.
      simpl. by rewrite (IHf found eq_refl).
    + intros [|o found] detail rest H Hnt; [discriminate|].
      injection H as <- ->. apply Forall_cons in Hnt as [_ Hnt].
      destruct (IHe found detail rest eq_refl Hnt) as [Heq Hq].
      simpl. rewrite Heq. split; [done|]. constructor; [|done]. by split.
Qed.

Lemma fallback_closes_iff_terminal_or_error_witness :
  Forall non_terminal_poll [Some (stream_task Tasks.queued)] ∧
  StreamFallback.poll_loop "T" None
    [inr (Some (stream_task Tasks.queued)); inl "store is down";
     inr (Some (stream_task Tasks.completed))] =
    [StreamFallback.loop_event
       (Stream.send_json (Stream.payload_of (stream_task Tasks.queued)));
     StreamFallback.send_internal_error "store is down";
     StreamFallback.loop_event Stream.close].
Proof.
  assert (H : Forall non_terminal_poll [Some (stream_task Tasks.queued)]).
  { constructor; [|constructor]. by intros t [= <-]. }
  split; [exact H|].
  destruct (fallback_closes_iff_terminal_or_error "T"
              [inr (Some (stream_task Tasks.queued)); inl "store is down";
               inr (Some (stream_task Tasks.completed))] None)
    as (_ & _ & _ & He).
  exact (proj1 (He [Some (stream_task Tasks.queued)] "store is down"
                   [inr (Some (stream_task Tasks.completed))] eq_refl H)).
Defined.

(** X11. While the polls find no terminal status, no two task messages in
    a row carry the same status, and the first does not repeat the status
    last sent: repeated polls of an unchanged task send nothing. *)
Theorem fallback_sends_no_repeats :
  ∀ (tid : string) (polls : list (option Tasks.GenerationTask))
    (last : option Tasks.TaskStatus),
    Forall non_terminal_poll polls →
    no_repeat last (sent_statuses (Stream.poll_loop tid last polls)).
Proof.
  intros tid polls. induction polls as [|[t|] polls IH]; intros last Hpolls.
  - done.
  - apply Forall_cons in Hpolls as [Ht Hpolls]. specialize (Ht t eq_refl).
    rewrite poll_loop_non_terminal by done.
    destruct (bool_decide_reflect (Some (Tasks.status t) = last)) as [<-|Hne].
    + simpl. by apply IH.
    + simpl. split; [done|]. by apply IH.
  - apply Forall_cons in Hpolls as [_ Hpolls]. simpl. by apply IH.
Qed.

Lemma fallback_sends_no_repeats_witness :
  Forall non_terminal_poll
    [Some (stream_task Tasks.queued); Some (stream_task Tasks.queued);
     None; Some (stream_task Tasks.running)] ∧
  no_repeat None
    (sent_statuses (Stream.poll_loop "T" None
       [Some (stream_task Tasks.queued); Some (stream_task Tasks.queued);
        None; Some (stream_task Tasks.running)])).
Proof.
  assert (H : Forall non_terminal_poll
    [Some (stream_task Tasks.queued); Some (stream_task Tasks.queued);
     None; Some (stream_task Tasks.running)]).
  { repeat constructor; intros t [= <-]; reflexivity. }
  split; [exact H|].
  exact (fallback_sends_no_repeats "T" _ None H).
Defined.

(* --------------------------------------------------------------------- *)
(** ** Session roster: joining and leaving *)
(* --------------------------------------------------------------------- *)

Section RosterFurther.
Import Roster Roster.CollaborationSession.

Lemma filter_absent uid (ps : list Participant) :
  uid ∉ map SessionParticipant.user_id ps →
  List.filter (fun p => negb (String.eqb (SessionParticipant.user_id p) uid)) ps = ps.
Proof.
  induction ps as [|p ps IH]; simpl; [done|].
  rewrite not_elem_of_cons. intros [Hne Hni].
  destruct (String.eqb_spec (SessionParticipant.user_id p) uid); [done|].
  simpl. by rewrite IH.
Qed.

Lemma filter_removes uid (ps : list Participant) :
  uid ∉ map SessionParticipant.user_id
          (List.filter (fun p => negb (String.eqb (SessionParticipant.user_id p) uid)) ps).
Proof.
  induction ps as [|p ps IH]; simpl; [apply not_elem_of_nil|].
  destruct (String.eqb_spec (SessionParticipant.user_id p) uid); simpl; [done|].
  apply not_elem_of_cons. by split.
Qed.

Lemma filter_shrinks uid (ps : list Participant) :
  uid ∈ map SessionParticipant.user_id ps →
  (length (List.filter
     (fun p => negb (String.eqb (SessionParticipant.user_id p) uid)) ps)
   < length ps)%nat.
Proof.
  induction ps as [|p ps IH]; simpl; [intros H; by apply not_elem_of_nil in H|].
  destruct (String.eqb_spec (SessionParticipant.user_id p) uid) as [Heq|Hne]; simpl.
  - intros _. pose proof (List.filter_length_le
      (fun p => negb (String.eqb (SessionParticipant.user_id p) uid)) ps). lia.
  - intros Hin. apply elem_of_cons in Hin as [Hin|Hin]; [done|].
    specialize (IH Hin). lia.
Qed.

Lemma filter_keeps_others uid (ps : list Participant) :
  (∀ p, p ∈ List.filter
              (fun p => negb (String.eqb (SessionParticipant.user_id p) uid)) ps
        ↔ p ∈ ps ∧ SessionParticipant.user_id p ≠ uid) ∧
  List.filter (fun p => negb (String.eqb (SessionParticipant.user_id p) uid)) ps
    `sublist_of` ps.
Proof.
  split.
  - intros p. rewrite !list_elem_of_In, List.filter_In, negb_true_iff.
    by rewrite String.eqb_neq.
  - induction ps as [|p ps IH]; simpl; [done|].
    destruct (negb _); by constructor.
Qed.

Lemma add_new_participant s uid username role now :
  uid ∉ ids s →
  Z.of_nat (length (participants s)) < max_participants s →
  add_participant s uid username role now =
    ret (with_participants s
           (participants s ++ [SessionParticipant.mk uid username role now now true])
           now).
Proof.
  intros Hni Hroom. unfold add_participant.
  destruct (Z.geb_spec (Z.of_nat (length (participants s))) (max_participants s));
    [lia|].
  by rewrite (proj2 (reactivate_None uid now (participants s)) Hni).
Qed.

End RosterFurther.

(** X12. A user that is not in a session with room left is appended as one
    active entry, so the count of active participants grows by one; and
    when that user is removed again the participant list is the one from
    before. *)
Theorem add_then_remove_restores_roster :
  ∀ (s : Roster.CollaborationSession.t) (uid username : string)
    (role : Roster.ParticipantRole) (now now' : Z),
    uid ∉ ids s →
    Z.of_nat (length (Roster.CollaborationSession.participants s)) <
      Roster.CollaborationSession.max_participants s →
    ∃ s', Roster.add_participant s uid username role now = ret s' ∧
      Roster.get_participant_count s' = S (Roster.get_participant_count s) ∧
      Roster.CollaborationSession.participants
        (Roster.remove_participant s' uid now') =
      Roster.CollaborationSession.participants s.
Proof.
  intros s uid username role now now' Hni Hroom.
  eexists. split; [by apply add_new_participant|]. split.
  - unfold Roster.get_participant_count, Roster.get_active_participants. simpl.
    rewrite List.filter_app, length_app. simpl. lia.
  - simpl. rewrite List.filter_app. simpl. rewrite String.eqb_refl. simpl.
    rewrite app_nil_r. by apply filter_absent.
Qed.

Lemma add_then_remove_restores_roster_witness :
  ("B" ∉ ids (Roster.apply_calls (standup 2) [Roster.Add "A" "a" Roster.ADMIN 1])) ∧
  ∃ s', Roster.add_participant
          (Roster.apply_calls (standup 2) [Roster.Add "A" "a" Roster.ADMIN 1])
          "B" "b" Roster.EDITOR 2 = ret s' ∧
        Roster.get_participant_count s' = 2%nat.
Proof.
  assert (H1 : "B" ∉ ids (Roster.apply_calls (standup 2)
                            [Roster.Add "A" "a" Roster.ADMIN 1])).
  { apply (bool_decide_unpack _). vm_compute. exact I. }
  assert (H2 : Z.of_nat (length (Roster.CollaborationSession.participants
                 (Roster.apply_calls (standup 2) [Roster.Add "A" "a" Roster.ADMIN 1])))
               < Roster.CollaborationSession.max_participants
                   (Roster.apply_calls (standup 2) [Roster.Add "A" "a" Roster.ADMIN 1]))
    by (vm_compute; reflexivity).
  split; [exact H1|].
  destruct (add_then_remove_restores_roster _ "B" "b" Roster.EDITOR 2 3 H1 H2)
    as (s' & Hadd & Hcount & _).
  exists s'. split; [exact Hadd|exact Hcount].
Defined.

(** X13. [remove_participant] drops every entry of the user and keeps
    the entries of all other users, unchanged and in their order; the
    capacity of the session stays, and on a user that is not in the
    session no entry changes.  When a participant has left a session that
    fitted its capacity, the next [add_participant] is not refused. *)
Theorem remove_participant_frees_a_slot :
  ∀ (s : Roster.CollaborationSession.t) (uid : string) (now : Z),
    (uid ∉ ids (Roster.remove_participant s uid now)) ∧
    (∀ p, p ∈ Roster.CollaborationSession.participants
                (Roster.remove_participant s uid now)
          ↔ p ∈ Roster.CollaborationSession.participants s ∧
            Roster.SessionParticipant.user_id p ≠ uid) ∧
    Roster.CollaborationSession.participants (Roster.remove_participant s uid now)
      `sublist_of` Roster.CollaborationSession.participants s ∧
    Roster.CollaborationSession.max_participants (Roster.remove_participant s uid now)
      = Roster.CollaborationSession.max_participants s ∧
    (uid ∉ ids s →
       Roster.CollaborationSession.participants (Roster.remove_participant s uid now) =
       Roster.CollaborationSession.participants s) ∧
    (uid ∈ ids s →
     Z.of_nat (length (Roster.CollaborationSession.participants s)) ≤
       Roster.CollaborationSession.max_participants s →
     ∀ uid' username role now',
       ∃ s', Roster.add_participant (Roster.remove_participant s uid now)
               uid' username role now' = ret s').
Proof.
  intros s uid now. split; [apply filter_removes|].
  split; [apply filter_keeps_others|]. split; [apply filter_keeps_others|].
  split; [done|]. split; [apply filter_absent|].
  intros Hin Hfit uid' username role now'.
  pose proof (filter_shrinks uid _ Hin) as Hlt.
  unfold Roster.add_participant. simpl.
  destruct (_ >=? _) eqn:Hge; [apply Z.geb_le in Hge; lia|].
  destruct (Roster.reactivate uid' now' _); by eexists.
Qed.

Lemma remove_participant_frees_a_slot_witness :
  "A" ∈ ids (Roster.apply_calls (standup 1) [Roster.Add "A" "a" Roster.ADMIN 1]) ∧
  ∃ s', Roster.add_participant
          (Roster.remove_participant
             (Roster.apply_calls (standup 1) [Roster.Add "A" "a" Roster.ADMIN 1])
             "A" 2)
          "B" "b" Roster.EDITOR 3 = ret s'.
Proof.
  assert (H1 : "A" ∈ ids (Roster.apply_calls (standup 1)
                            [Roster.Add "A" "a" Roster.ADMIN 1])).
  { apply (bool_decide_unpack _). vm_compute. exact I. }
  assert (H2 : Z.of_nat (length (Roster.CollaborationSession.participants
                 (Roster.apply_calls (standup 1) [Roster.Add "A" "a" Roster.ADMIN 1])))
               ≤ Roster.CollaborationSession.max_participants
                   (Roster.apply_calls (standup 1) [Roster.Add "A" "a" Roster.ADMIN 1])).
  { vm_compute. discriminate. }
  split; [exact H1|].
  destruct (remove_participant_frees_a_slot
              (Roster.apply_calls (standup 1) [Roster.Add "A" "a" Roster.ADMIN 1])
              "A" 2) as (_ & _ & _ & _ & _ & Hfree).
  exact (Hfree H1 H2 "B" "b" Roster.EDITOR 3).
Defined.

(* --------------------------------------------------------------------- *)
(** ** Session endpoints *)
(* --------------------------------------------------------------------- *)

Section CollabApiProperties.
Import Roster Roster.CollaborationSession CollabApi.

Lemma existsb_member cur (ps : list Participant) :
  existsb (fun p => String.eqb (SessionParticipant.user_id p) cur) ps = true ↔
  cur ∈ map SessionParticipant.user_id ps.
Proof.
  rewrite List.existsb_exists, list_elem_of_fmap. split.
  - intros (p & Hin & Heq). apply String.eqb_eq in Heq. exists p.
    split; [done|]. by apply list_elem_of_In.
  - intros (p & -> & Hin). exists p. split; [by apply list_elem_of_In|].
    apply String.eqb_refl.
Qed.


End CollabApiProperties.



(** X15. [create_session] stores a session only for a capacity of at
    least one: with [max_participants] zero or negative the creator cannot
    be added, the answer is a 500 that quotes the capacity error, and
    nothing is stored, whatever the store would do.  With room for one
    and a store that accepts the saves, the stored session has exactly one
    participant, the creator, active and with the role [ADMIN]; when the
    first save is refused the answer is a 500 with its text and nothing
    is stored. *)
Theorem create_session_needs_capacity :
  ∀ (db : gmap string Roster.CollaborationSession.t) (new_id name creator : string)
    (max_participants : Z) (username : string) (now : Z) (save save' : store_reply),
    (max_participants ≤ 0 →
     CollabApi.create_session db new_id name creator max_participants
       creator username now save save' =
       (db, TaskApi.http_error 500
              "Failed to create session: Session is at maximum capacity")) ∧
    (0 < max_participants →
     (∃ s, CollabApi.create_session db new_id name creator max_participants
             creator username now accepted accepted =
             (<[new_id := s]> db, TaskApi.content new_id) ∧
           Roster.CollaborationSession.participants s =
             [Roster.SessionParticipant.mk creator username Roster.ADMIN now now true] ∧
           Roster.CollaborationSession.max_participants s = max_participants ∧
           Roster.CollaborationSession.host_user_id s = creator) ∧
     (∀ text,
        CollabApi.create_session db new_id name creator max_participants
          creator username now (refused text) save' =
          (db, TaskApi.http_error 500
                 (String.append "Failed to create session: " text)))).
Proof.
  intros db new_id name creator max_participants username now save save'.
  unfold CollabApi.create_session. rewrite String.eqb_refl.
  cbn [negb]. split; intros Hmax.
  - by rewrite add_participant_at_capacity by (simpl; lia).
  - rewrite add_new_participant; [|apply not_elem_of_nil|simpl; lia].
    split; [|done]. eexists. split; [reflexivity|done].
Qed.

Lemma create_session_needs_capacity_witness :
  0 < 4 ∧
  ∃ s, CollabApi.create_session ∅ "id" "demo" "A" 4 "A" "a" 0 accepted accepted =
         (<["id" := s]> ∅, TaskApi.content "id") ∧
       Roster.CollaborationSession.participants s =
         [Roster.SessionParticipant.mk "A" "a" Roster.ADMIN 0 0 true].
Proof.
  assert (H : 0 < 4) by lia.
  split; [exact H|].
  destruct (proj1 (proj2 (create_session_needs_capacity ∅ "id" "demo" "A" 4 "a" 0
                            accepted accepted) H))
    as (s & Hc & Hps & _).
  exists s. split; [exact Hc|exact Hps].
Defined.

(** X16. On a store that accepts the calls, a user who is neither the
    host nor a participant of a session with room left can join it, may
    then view it, and after leaving finds the participant list as it was
    before the join and is refused the view with a 403. *)
Theorem join_then_leave_restores_session :
  ∀ (db : gmap string Roster.CollaborationSession.t) (sid cur : string)
    (username : option string) (s : Roster.CollaborationSession.t) (now now' : Z),
    db !! sid = Some s →
    cur ∉ ids s →
    Roster.CollaborationSession.host_user_id s ≠ cur →
    Z.of_nat (length (Roster.CollaborationSession.participants s)) <
      Roster.CollaborationSession.max_participants s →
    ∃ db1 db2 s1 s2,
      CollabApi.join_session db sid (Some cur) username cur now
        accepted accepted accepted =
        (db1, TaskApi.content "Successfully joined session") ∧
      CollabApi.get_session db1 sid cur accepted = TaskApi.content s1 ∧
      CollabApi.leave_session db1 sid (Some cur) cur now'
        accepted accepted accepted =
        (db2, TaskApi.content "Successfully left session") ∧
      db2 !! sid = Some s2 ∧
      Roster.CollaborationSession.participants s2 =
        Roster.CollaborationSession.participants s ∧
      CollabApi.get_session db2 sid cur accepted =
        TaskApi.http_error 403 "Not authorized to view this session".
Proof.
  intros db sid cur username s now now' Hs Hni Hhost Hroom.
  unfold CollabApi.join_session, CollabApi.leave_session, CollabApi.save_twice.
  rewrite bool_decide_eq_true_2 by done. simpl. rewrite Hs.
  rewrite add_new_participant by done. simpl.
  eexists _, _, _, _. split; [reflexivity|]. split.
  { unfold CollabApi.get_session. rewrite lookup_insert_eq. simpl.
    rewrite existsb_app. simpl. rewrite String.eqb_refl.
    by rewrite orb_true_r. }
  rewrite lookup_insert_eq. split; [reflexivity|].
  rewrite lookup_insert_eq. split; [reflexivity|].
  assert (Hps : List.filter
            (fun p => negb (String.eqb (Roster.SessionParticipant.user_id p) cur))
            (Roster.CollaborationSession.participants s ++
             [Roster.SessionParticipant.mk cur
                (default (String.append "user_" cur) username) Roster.EDITOR now now true])
          = Roster.CollaborationSession.participants s).
  { rewrite List.filter_app. simpl. rewrite String.eqb_refl. simpl.
    rewrite app_nil_r. by apply filter_absent. }
  split; [simpl; exact Hps|].
  unfold CollabApi.get_session. rewrite ?lookup_insert_eq. simpl. rewrite Hps.
  destruct (existsb _ (Roster.CollaborationSession.participants s)) eqn:Hex.
  { apply existsb_member in Hex. done. }
  simpl. destruct (String.eqb_spec (Roster.CollaborationSession.host_user_id s) cur);
    done.
Qed.

Lemma join_then_leave_restores_session_witness :
  ({["s" := standup 2]} : gmap string Roster.CollaborationSession.t) !! "s"
    = Some (standup 2) ∧
  ∃ db1, CollabApi.join_session {["s" := standup 2]} "s" (Some "B") None "B" 1
           accepted accepted accepted =
           (db1, TaskApi.content "Successfully joined session").
Proof.
  assert (H1 : ({["s" := standup 2]} : gmap string Roster.CollaborationSession.t)
                 !! "s" = Some (standup 2)) by (vm_compute; reflexivity).
  assert (H2 : "B" ∉ ids (standup 2)) by apply not_elem_of_nil.
  assert (H3 : Roster.CollaborationSession.host_user_id (standup 2) ≠ "B")
    by discriminate.
  assert (H4 : Z.of_nat (length (Roster.CollaborationSession.participants (standup 2)))
               < Roster.CollaborationSession.max_participants (standup 2))
    by (vm_compute; reflexivity).
  split; [exact H1|].
  destruct (join_then_leave_restores_session _ "s" "B" None _ 1 2 H1 H2 H3 H4)
    as (db1 & _ & _ & _ & Hjoin & _).
  exists db1. exact Hjoin.
Defined.

(* --------------------------------------------------------------------- *)
(** ** Connection registry: joining, leaving, relaying *)
(* --------------------------------------------------------------------- *)

Section RegistryFurther.
Import Registry RegistryViews.


(** What the synchronous part of [connect] does to an existing session. *)
Lemma connect_register_existing m ws sid ui uuid4 t conns meta :
  active_connections m !! sid = Some conns →
  sessions m !! sid = Some meta →
  ∃ m' ui' uid,
    connect_register m ws sid ui uuid4 t = ret (m', ui', uid) ∧
    active_connections m' = <[sid := conns ∪ {[ws]}]> (active_connections m) ∧
    user_id ui' = Some uid ∧
    user_name ui' = user_name ui.
Proof.
  intros Hac Hse. unfold connect_register. rewrite Hac.
  rewrite (getitem_Some _ _ _ Hac), bind_ret_l. cbn [sessions].
  rewrite (getitem_Some _ _ _ Hse), bind_ret_l.
  eexists _, _, _. split; [reflexivity|].
  split; [by destruct (existsb _ _)|].
  destruct ui as [[u|] n]; simpl; [by destruct (negb _)|done].
Qed.

Lemma disconnect_inv w ws w' ts :
  disconnect w ws = ret (w', ts) →
  (user_connections (manager w) !! ws = None ∧ w' = w ∧ ts = []) ∨
  (is_Some (user_connections (manager w) !! ws) ∧
   user_connections (manager w') !! ws = None ∧
   net w' = net w ∧ db w' = db w).
Proof.
  unfold disconnect.
  destruct (user_connections (manager w) !! ws) as [[sid ui]|] eqn:Huc.
  - intros Hd. right. split; [by eexists|].
    apply bind_ret_inv in Hd as ([m1 notify] & _ & Hd).
    injection Hd as <- _. simpl. by rewrite lookup_delete_eq.
  - intros [= <- <-]. by left.
Qed.





End RegistryFurther.



Section CoverAmongOthers.
Import Registry.








End CoverAmongOthers.



(** X19. [disconnect] is idempotent: once a socket has been disconnected,
    a second [disconnect] of it changes nothing and schedules nothing. *)
Theorem disconnect_twice_is_once :
  ∀ (w w' : Registry.world) (ws : Registry.WebSocket)
    (ts : list Registry.spawned),
    Registry.disconnect w ws = ret (w', ts) →
    Registry.disconnect w' ws = ret (w', []).
Proof.
  intros w w' ws ts Hd.
  apply disconnect_inv in Hd as [(Hnone & -> & _)|(_ & Hnone & _)];
    unfold Registry.disconnect; by rewrite Hnone.
Qed.

Lemma disconnect_twice_is_once_witness :
  ∃ w' ts,
    Registry.disconnect two_joined 1%nat = ret (w', ts) ∧
    Registry.disconnect w' 1%nat = ret (w', []).
Proof.
  destruct (Registry.disconnect two_joined 1%nat) as [e|[w' ts]] eqn:Hd.
  - exfalso. vm_compute in Hd. discriminate.
  - exists w', ts. split; [reflexivity|].
    exact (disconnect_twice_is_once two_joined w' 1%nat ts Hd).
Defined.


Section RegistryRoundTrip.
Import Registry RegistryViews.

Lemma connect_register_fresh m ws sid uid name uuid4 t :
  uid ≠ "" →
  active_connections m !! sid = None →
  user_id_connections m !! uid = None →
  connect_register m ws sid (mkUser (Some uid) name) uuid4 t =
    ret (mkManager (<[sid := {[ws]}]> (active_connections m))
                   (<[ws := (sid, mkUser (Some uid) name)]> (user_connections m))
                   (<[sid := mkMeta sid t [mkUser (Some uid) name]]> (sessions m))
                   (<[uid := {[ws]}]> (user_id_connections m)),
         mkUser (Some uid) name, uid).
Proof.
  intros Huid Hac Hui.
  assert (Ht : negb (String.eqb uid "") = true).
  { by destruct (String.eqb_spec uid ""). }
  unfold connect_register. simpl. rewrite Ht, Hac. simpl.
  rewrite (getitem_Some _ _ (∅ : gset nat)) by apply lookup_insert_eq. rewrite bind_ret_l.
  rewrite (getitem_Some _ _ (mkMeta sid t [])) by apply lookup_insert_eq.
  rewrite bind_ret_l. simpl. rewrite Hui. simpl.
  rewrite !insert_insert_eq, (left_id_L ∅ (∪)). done.
Qed.

Lemma broadcast_only_excluded w sid msg ws :
  active_connections (manager w) !! sid = Some {[ws]} →
  broadcast_to_session w sid msg (Some ws) = ret w.
Proof.
  intros Hac. unfold broadcast_to_session. rewrite Hac, elements_singleton.
  simpl. unfold broadcast_one. by rewrite bool_decide_eq_true_2.
Qed.

End RegistryRoundTrip.

(** X20. When a user with an id of its own opens the first connection of a
    session that the registry does not know, and the user has no other
    connection, [connect] followed by [disconnect] gives back the four
    maps of the registry exactly as they were: the session is created and
    discarded with its metadata, nothing is broadcast, and
    [get_session_info] answers with the roster in between and with nothing
    afterwards. *)
Theorem connect_then_disconnect_restores_registry :
  ∀ (w : Registry.world) (ws : Registry.WebSocket) (sid uid : string)
    (name : option string) (uuid4 : string) (t now : Z),
    uid ≠ "" → sid ≠ "" →
    Registry.active_connections (Registry.manager w) !! sid = None →
    Registry.sessions (Registry.manager w) !! sid = None →
    Registry.user_connections (Registry.manager w) !! ws = None →
    Registry.user_id_connections (Registry.manager w) !! uid = None →
    ∃ w1 w2,
      Registry.connect w ws sid (Registry.mkUser (Some uid) name) uuid4 t now
        = ret w1 ∧
      RegistryViews.get_session_info (Registry.manager w1) sid =
        Some (Registry.mkMeta sid t [Registry.mkUser (Some uid) name]) ∧
      Registry.disconnect w1 ws =
        ret (w2, [Registry.persist_leave sid (Some uid)
                    (Registry.mkUser (Some uid) name)]) ∧
      Registry.manager w2 = Registry.manager w ∧
      RegistryViews.get_session_info (Registry.manager w2) sid = None.
Proof.
  intros w ws sid uid name uuid4 t now Huid Hsid Hac Hse Huc Hui.
  assert (Ht : negb (String.eqb uid "") = true).
  { by destruct (String.eqb_spec uid ""). }
  assert (Hsid' : String.eqb sid "" = false) by by apply String.eqb_neq.
  assert (Hlast : bool_decide (({[ws]} : gset nat) ∖ {[ws]} = ∅) = true).
  { apply bool_decide_eq_true_2. apply difference_diag_L. }
  unfold Registry.connect.
  rewrite connect_register_fresh by done. rewrite bind_ret_l.
  unfold Registry.user_joined_message. cbn [Registry.active_connections].
  rewrite (getitem_Some _ _ {[ws]}) by apply lookup_insert_eq.
  rewrite !bind_ret_l.
  rewrite broadcast_only_excluded by apply lookup_insert_eq.
  rewrite bind_ret_l. unfold Registry.session_info_message.
  cbn [Registry.manager Registry.with_manager Registry.sessions
       Registry.active_connections].
  rewrite (getitem_Some _ _
             (Registry.mkMeta sid t [Registry.mkUser (Some uid) name]))
    by apply lookup_insert_eq.
  rewrite bind_ret_l.
  rewrite (getitem_Some _ _ {[ws]}) by apply lookup_insert_eq.
  rewrite !bind_ret_l.
  eexists _, _. split; [reflexivity|].
  split.
  { unfold RegistryViews.get_session_info.
    rewrite (proj1 (persist_join_manager _ _ _ _ _)),
      send_personal_message_manager. apply lookup_insert_eq. }
  unfold Registry.disconnect.
  rewrite (proj1 (persist_join_manager _ _ _ _ _)),
    send_personal_message_manager.
  cbn [Registry.manager Registry.with_manager Registry.user_connections
       Registry.active_connections Registry.sessions].
  rewrite !lookup_insert_eq.
  rewrite (getitem_Some _ _
             (Registry.mkMeta sid t [Registry.mkUser (Some uid) name]))
    by apply lookup_insert_eq.
  rewrite bind_ret_l, Hlast, bind_ret_l. simpl. rewrite Ht, Hsid'. simpl.
  rewrite lookup_insert_eq, Hlast.
  split; [reflexivity|].
  cbn [Registry.manager Registry.with_manager].
  rewrite !delete_insert_id by done.
  split; [by destruct (Registry.manager w)|].
  unfold RegistryViews.get_session_info. by cbn [Registry.sessions].
Qed.

Lemma connect_then_disconnect_restores_registry_witness :
  "A" ≠ "" ∧ "s" ≠ "" ∧
  ∃ w1 w2,
    Registry.connect Registry.empty_world 1%nat "s" alice "uuid" 0 0 = ret w1 ∧
    Registry.disconnect w1 1%nat =
      ret (w2, [Registry.persist_leave "s" (Some "A") alice]) ∧
    Registry.manager w2 = Registry.manager Registry.empty_world.
Proof.
  assert (H1 : "A" ≠ "") by discriminate.
  assert (H2 : "s" ≠ "") by discriminate.
  split; [exact H1|]. split; [exact H2|].
  destruct (connect_then_disconnect_restores_registry Registry.empty_world 1%nat
              "s" "A" (Some "alice") "uuid" 0 0 H1 H2
              (lookup_empty _) (lookup_empty _) (lookup_empty _) (lookup_empty _))
    as (w1 & w2 & Hc & _ & Hd & Hm & _).
  exists w1, w2. split; [exact Hc|]. split; [exact Hd|exact Hm].
Defined.

(* --------------------------------------------------------------------- *)
(** ** Registry: notices, messages, listing and invites *)
(* --------------------------------------------------------------------- *)

Section RegistryJoinNotice.
Import Registry RegistryViews.


End RegistryJoinNotice.



Section RegistryMessages.
Import Registry.

Lemma handle_message_async_alone w ws type body t :
  run_alone (handle_message_async ws type body t) w =
    handle_message w ws type body t.
Proof.
  unfold handle_message_async, handle_message. cbn [run_alone].
  destruct (user_connections (manager w) !! ws) as [[sid ui]|]; [|done].
  set (msg := client_message type body ui t).
  set (ex := if String.eqb type "chat_message" then None else Some ws).
  change (run_k (broadcast_to_session_async sid msg ex (fun w1 => ret (w1, Done))) w
          = (if String.eqb type "chat_message"
             then broadcast_to_session w sid msg None
             else broadcast_to_session w sid msg (Some ws))).
  rewrite broadcast_to_session_async_alone.
  replace (if String.eqb type "chat_message"
           then broadcast_to_session w sid msg None
           else broadcast_to_session w sid msg (Some ws))
    with (broadcast_to_session w sid msg ex)
    by (unfold ex; by destruct (String.eqb type "chat_message")).
  by destruct (broadcast_to_session w sid msg ex).
Qed.

End RegistryMessages.

(** X22. [handle_message] reads the type of the message first, and on a
    JSON value that is not an object it raises [AttributeError] before
    anything is sent, whoever the sender is.  On an object, and with no
    other handler running between its sends, it returns and does not touch
    the database: a message from a socket the registry does not know is
    dropped; otherwise the message is stamped with the sender as the
    registry has it and with the clock, and it is appended to the inbox of
    exactly the healthy connections of the sender's session, the sender's
    own connection only for a [chat_message]; no other inbox changes. *)
Theorem handle_message_stays_in_session :
  ∀ (w : Registry.world) (ws : Registry.WebSocket)
    (message : RegistryInbound.json) (t : Z),
    Registry.run_alone (RegistryInbound.handle_message_async ws message t) w =
      RegistryInbound.handle_message w ws message t ∧
    match message with
    | RegistryInbound.json_value =>
        RegistryInbound.handle_message w ws message t = raise AttributeError
    | RegistryInbound.json_object type body =>
        ∃ w', RegistryInbound.handle_message w ws message t = ret w' ∧
          Registry.db w' = Registry.db w ∧
          ∀ c, Registry.inbox w' c =
            match Registry.user_connections (Registry.manager w) !! ws with
            | Some (sid, ui) =>
                if decide
                     (c ∈ default ∅
                            (Registry.active_connections (Registry.manager w) !! sid) ∧
                      (c ∉ Registry.broken (Registry.net w)) ∧
                      (type = "chat_message" ∨ c ≠ ws))
                then Registry.inbox w c ++ [Registry.client_message type body ui t]
                else Registry.inbox w c
            | None => Registry.inbox w c
            end
    end.
Proof.
  intros w ws [type body|] t; (split; [|]); try done.
  { apply handle_message_async_alone. }
  cbn [RegistryInbound.handle_message]. unfold Registry.handle_message.
  destruct (Registry.user_connections (Registry.manager w) !! ws)
    as [[sid ui]|] eqn:Huc; [|by exists w].
  set (msg := Registry.client_message type body ui t).
  set (ex := if String.eqb type "chat_message" then None else Some ws).
  assert (Hex : ∀ c, ex ≠ Some c ↔ (type = "chat_message" ∨ c ≠ ws)).
  { intros c. unfold ex. destruct (String.eqb_spec type "chat_message").
    - split; [by left|done].
    - split; [intros H; right; congruence|]. intros [?|?]; congruence. }
  destruct (broadcast_to_session_total sid msg ex w) as (w' & Hb & Hpost).
  exists w'. split.
  { unfold ex in Hb. by destruct (String.eqb type "chat_message"). }
  destruct (Registry.active_connections (Registry.manager w) !! sid)
    as [conns|] eqn:Hac.
  - destruct Hpost as [Hdb _ _ _ _ _ Hinb _]. split; [done|].
    intros c. rewrite Hinb. simpl.
    apply decide_ext. rewrite elem_of_elements, Hex. done.
  - subst w'. split; [done|]. intros c. rewrite decide_False; [done|].
    simpl. intros [H _]. by apply not_elem_of_empty in H.
Qed.

Section RegistryListing.
Import Registry RegistryViews.

Lemma list_sessions_from_spec m items :
  NoDup (map fst items) →
  (∀ sid conns, (sid, conns) ∈ items → conns ≠ ∅ → is_Some (sessions m !! sid)) →
  ∃ l, list_sessions_from m items = ret l ∧
    NoDup (map entry_session_id l) ∧
    (∀ sid, sid ∈ map entry_session_id l ↔
            ∃ conns, (sid, conns) ∈ items ∧ conns ≠ ∅) ∧
    ∀ e, e ∈ l →
      ∃ conns meta, (entry_session_id e, conns) ∈ items ∧ conns ≠ ∅ ∧
        sessions m !! entry_session_id e = Some meta ∧
        e = mkEntry (entry_session_id e) (size conns) (meta_participants meta)
              (meta_created_at meta).
Proof.
  induction items as [|[sid conns] items IH]; intros Hnd Hcover.
  - exists []. split; [done|]. split; [constructor|]. split.
    + intros sid. split; [intros H; by apply not_elem_of_nil in H|].
      intros (conns & H & _). by apply not_elem_of_nil in H.
    + intros e H. by apply not_elem_of_nil in H.
  - simpl in Hnd. apply NoDup_cons in Hnd as [Hsid Hnd].
    destruct IH as (l & Hl & Hndl & Hids & Hall); [done| |].
    { intros sid' conns' Hin. apply Hcover. by right. }
    simpl. case_bool_decide as Hempty.
    + exists l. split; [done|]. split; [done|]. split.
      * intros sid'. rewrite Hids. split.
        -- intros (conns' & Hin & Hne). exists conns'. split; [by right|done].
        -- intros (conns' & Hin & Hne). exists conns'. split; [|done].
           apply elem_of_cons in Hin as [[= -> ->]|Hin]; done.
      * intros e He. destruct (Hall e He) as (conns' & meta & Hin & Hrest).
        exists conns', meta. split; [by right|done].
    + destruct (Hcover sid conns) as [meta Hmeta]; [by left|done|].
      rewrite (getitem_Some _ _ _ Hmeta), bind_ret_l, Hl, bind_ret_l.
      eexists. split; [reflexivity|]. split; [|split].
      * simpl. apply NoDup_cons. split; [|done]. rewrite Hids.
        intros (conns' & Hin & _). apply Hsid.
        apply list_elem_of_fmap. by exists (sid, conns').
      * intros sid'. simpl. rewrite elem_of_cons, Hids. split.
        -- intros [->|(conns' & Hin & Hne)].
           ++ exists conns. split; [by left|done].
           ++ exists conns'. split; [by right|done].
        -- intros (conns' & Hin & Hne).
           apply elem_of_cons in Hin as [[= -> ->]|Hin]; [by left|].
           right. by exists conns'.
      * intros e He. apply elem_of_cons in He as [->|He].
        -- exists conns, meta. simpl. split; [by left|done].
        -- destruct (Hall e He) as (conns' & meta' & Hin & Hrest).
           exists conns', meta'. split; [by right|done].
Qed.

End RegistryListing.

(** X23. On a registry in which every session with a connection set has
    its metadata, [list_active_sessions] returns, and it lists each
    session that has at least one connection exactly once, with the size
    of its connection set, its roster and its creation time.  A session
    whose connection set has become empty is left out. *)
Theorem list_active_sessions_lists_live_sessions :
  ∀ (m : Registry.ConnectionManager),
    sessions_cover m →
    ∃ l, RegistryViews.list_active_sessions m = ret l ∧
      NoDup (map RegistryViews.entry_session_id l) ∧
      (∀ sid, sid ∈ map RegistryViews.entry_session_id l ↔
              ∃ conns, Registry.active_connections m !! sid = Some conns ∧
                       conns ≠ ∅) ∧
      ∀ e, e ∈ l →
        ∃ conns meta,
          Registry.active_connections m !! RegistryViews.entry_session_id e
            = Some conns ∧
          Registry.sessions m !! RegistryViews.entry_session_id e = Some meta ∧
          RegistryViews.entry_participants_count e = size conns ∧
          (0 < RegistryViews.entry_participants_count e)%nat ∧
          RegistryViews.entry_participants e = Registry.meta_participants meta ∧
          RegistryViews.entry_created_at e = Registry.meta_created_at meta.
Proof.
  intros m Hcover. unfold RegistryViews.list_active_sessions.
  destruct (list_sessions_from_spec m (map_to_list (Registry.active_connections m)))
    as (l & Hl & Hnd & Hids & Hall).
  { apply NoDup_fst_map_to_list. }
  { intros sid conns Hin _. apply Hcover. apply elem_of_map_to_list in Hin.
    by eexists. }
  exists l. split; [done|]. split; [done|]. split.
  - intros sid. rewrite Hids. split.
    + intros (conns & Hin & Hne). exists conns.
      by apply elem_of_map_to_list in Hin.
    + intros (conns & Hin & Hne). exists conns.
      by apply elem_of_map_to_list in Hin.
  - intros e He. destruct (Hall e He) as (conns & meta & Hin & Hne & Hmeta & Heq).
    exists conns, meta. apply elem_of_map_to_list in Hin.
    split; [done|]. split; [done|]. rewrite Heq. simpl.
    split; [done|]. split; [|done].
    assert (size conns ≠ 0%nat); [|lia].
    intros H0. apply size_empty_inv in H0. apply Hne. by apply leibniz_equiv.
Qed.

Lemma list_active_sessions_lists_live_sessions_witness :
  sessions_cover (Registry.manager two_joined) ∧
  ∃ l, RegistryViews.list_active_sessions (Registry.manager two_joined) = ret l ∧
       map RegistryViews.entry_session_id l = ["s"] ∧
       map RegistryViews.entry_participants_count l = [2%nat].
Proof.
  split; [exact two_joined_cover|].
  destruct (list_active_sessions_lists_live_sessions
              (Registry.manager two_joined) two_joined_cover)
    as (l & Hl & _).
  exists l. split; [exact Hl|].
  assert (Hc : RegistryViews.list_active_sessions (Registry.manager two_joined)
               = ret [RegistryViews.mkEntry "s" 2 [alice; bob] 0]).
  { vm_compute. reflexivity. }
  rewrite Hc in Hl. injection Hl as <-. split; reflexivity.
Defined.


Section RegistryInvite.
Import Registry RegistryViews.


End RegistryInvite.

